(** * Matrix fetch, parse and counterclockwise traversal

    A shallow embedding of [my_matrix_app/utils_library.py]:
    [start_matrix_data], [counterclockwise_traversal] and [get_matrix],
    together with the properties the specification states about them.

    Conventions of the embedding.
    - A Python [int] is a [Z].
    - A Python [str] is a [list ascii]; a character stands for the code
      point of the same number, so the model covers the texts whose code
      points are below 256.  [int()] refuses a literal of more than 4300
      digits, the limit of an interpreter that is not reconfigured.
    - A Python list is a [list]; indexing follows Python, negative indices
      included.
    - Code that may raise returns an [outcome]; the [while] loop runs on
      fuel, and running dry is a third outcome, proved below never to
      happen.
    - The coroutine [get_matrix] is a function of the network's answer and
      of a [world] that records the requests sent, the bodies read and the
      log records emitted. *)

From Stdlib Require Import Ascii String DecimalString.
From Stdlib Require DecimalPos.
From Stdlib Require Import ZArith List Lia Bool Permutation.
Import ListNotations.

Local Open Scope Z_scope.

(** ** Python values *)

Definition str := list ascii.

(** A literal of the source. *)
Definition py (s : string) : str := list_ascii_of_string s.

(** The exception classes that decide which [except] clause of
    [get_matrix] runs.  A class that is not listed behaves as its nearest
    listed ancestor; [OtherException] is any class whose only listed
    ancestor is [Exception]. *)
Inductive exn_class : Type :=
| Exception
| ValueError
| IndexError
| AsyncioTimeoutError
| ClientError
| ClientConnectionError
| ClientResponseError
| ClientPayloadError
| ServerConnectionError
| ServerTimeoutError
| ServerDisconnectedError
| OtherException.

Definition exn_class_eqb (a b : exn_class) : bool :=
  match a, b with
  | Exception, Exception
  | ValueError, ValueError
  | IndexError, IndexError
  | AsyncioTimeoutError, AsyncioTimeoutError
  | ClientError, ClientError
  | ClientConnectionError, ClientConnectionError
  | ClientResponseError, ClientResponseError
  | ClientPayloadError, ClientPayloadError
  | ServerConnectionError, ServerConnectionError
  | ServerTimeoutError, ServerTimeoutError
  | ServerDisconnectedError, ServerDisconnectedError
  | OtherException, OtherException => true
  | _, _ => false
  end.

(** The class itself and its ancestors, as [aiohttp.client_exceptions] and
    the builtins declare them. *)
Definition ancestors (c : exn_class) : list exn_class :=
  match c with
  | Exception => [Exception]
  | ValueError => [ValueError; Exception]
  | IndexError => [IndexError; Exception]
  | AsyncioTimeoutError => [AsyncioTimeoutError; Exception]
  | ClientError => [ClientError; Exception]
  | ClientConnectionError => [ClientConnectionError; ClientError; Exception]
  | ClientResponseError => [ClientResponseError; ClientError; Exception]
  | ClientPayloadError => [ClientPayloadError; ClientError; Exception]
  | ServerConnectionError =>
      [ServerConnectionError; ClientConnectionError; ClientError; Exception]
  | ServerTimeoutError =>
      [ServerTimeoutError; ServerConnectionError; ClientConnectionError;
       ClientError; AsyncioTimeoutError; Exception]
  | ServerDisconnectedError =>
      [ServerDisconnectedError; ServerConnectionError; ClientConnectionError;
       ClientError; Exception]
  | OtherException => [OtherException; Exception]
  end.

(** An exception: its class and the text [str(e)] gives. *)
Record exn : Type := mk_exn { exn_cls : exn_class; exn_text : str }.

Definition isinstance (e : exn) (c : exn_class) : bool :=
  existsb (exn_class_eqb c) (ancestors (exn_cls e)).

(** ** Outcomes *)

Inductive outcome (A : Type) : Type :=
| Ok (a : A)
| Raise (e : exn)
| OutOfFuel.

Arguments Ok {A} a.
Arguments Raise {A} e.
Arguments OutOfFuel {A}.

Definition bind {A B : Type} (m : outcome A) (k : A -> outcome B) : outcome B :=
  match m with
  | Ok a => k a
  | Raise e => Raise e
  | OutOfFuel => OutOfFuel
  end.

Declare Scope outcome_scope.
Delimit Scope outcome_scope with outcome.
Notation "x <- m ;; k" := (bind m (fun x => k))
  (at level 61, m at next level, right associativity) : outcome_scope.
Local Open Scope outcome_scope.

(** [for x in xs: s = body(s, x)], stopping at the first exception. *)
Fixpoint for_each {S X : Type} (body : S -> X -> outcome S) (xs : list X) (s : S)
  : outcome S :=
  match xs with
  | [] => Ok s
  | x :: xs' => s' <- body s x ;; for_each body xs' s'
  end.

(** [list(map(f, xs))], stopping at the first exception. *)
Fixpoint map_outcome {X Y : Type} (f : X -> outcome Y) (xs : list X)
  : outcome (list Y) :=
  match xs with
  | [] => Ok []
  | x :: xs' => y <- f x ;; ys <- map_outcome f xs' ;; Ok (y :: ys)
  end.

(** ** Python lists *)

Definition len {A : Type} (l : list A) : Z := Z.of_nat (length l).

Definition index_error : exn := mk_exn IndexError (py "list index out of range").

(** [l[i]]: a negative index counts from the end. *)
Definition py_index {A : Type} (l : list A) (i : Z) : outcome A :=
  let j := if i <? 0 then i + len l else i in
  if (0 <=? j) && (j <? len l)
  then match nth_error l (Z.to_nat j) with
       | Some a => Ok a
       | None => Raise index_error
       end
  else Raise index_error.

(** [range(start, stop)] *)
Definition py_range (start stop : Z) : list Z :=
  map (fun k => start + Z.of_nat k) (seq 0 (Z.to_nat (stop - start))).

(** [range(start, stop, -1)] *)
Definition py_range_down (start stop : Z) : list Z :=
  map (fun k => start - Z.of_nat k) (seq 0 (Z.to_nat (start - stop))).

(** [l[1:-1]] *)
Definition slice_1_m1 {A : Type} (l : list A) : list A := removelast (tl l).

(** ** counterclockwise_traversal *)

Definition grid := list (list Z).

(** The local variables of [counterclockwise_traversal].  [reads] is a ghost
    field: the index pairs [(row, col)] of the reads [matrix[row][col]] made
    so far, in order. *)
Record state : Type := mk_state {
  row_start : Z;
  row_end : Z;
  col_start : Z;
  col_end : Z;
  result : list Z;
  reads : list (Z * Z)
}.

(** [result.append(matrix[row][col])] *)
Definition append_cell (matrix : grid) (acc : list Z * list (Z * Z)) (row col : Z)
  : outcome (list Z * list (Z * Z)) :=
  r <- py_index matrix row ;;
  x <- py_index r col ;;
  Ok (fst acc ++ [x], snd acc ++ [(row, col)]).

(** [for row in rows: result.append(matrix[row][col])] *)
Definition walk_column (matrix : grid) (col : Z) (rows : list Z)
  (acc : list Z * list (Z * Z)) : outcome (list Z * list (Z * Z)) :=
  for_each (fun a row => append_cell matrix a row col) rows acc.

(** [for col in cols: result.append(matrix[row][col])] *)
Definition walk_row (matrix : grid) (row : Z) (cols : list Z)
  (acc : list Z * list (Z * Z)) : outcome (list Z * list (Z * Z)) :=
  for_each (fun a col => append_cell matrix a row col) cols acc.

(** One pass through the body of the [while] loop. *)
Definition loop_body (matrix : grid) (st : state) : outcome state :=
  let rs := row_start st in
  let re := row_end st in
  let cs := col_start st in
  let ce := col_end st in
  (* Traverse upwards *)
  a1 <- walk_column matrix cs (py_range rs (re + 1)) (result st, reads st) ;;
  let cs := cs + 1 in
  (* Traverse leftwards *)
  a2 <- walk_row matrix re (py_range cs (ce + 1)) a1 ;;
  let re := re - 1 in
  a3ce <- (if cs <=? ce
           then (* Traverse downwards *)
             a <- walk_column matrix ce (py_range_down re (rs - 1)) a2 ;;
             Ok (a, ce - 1)
           else Ok (a2, ce)) ;;
  let a3 := fst a3ce in
  let ce := snd a3ce in
  a4rs <- (if rs <=? re
           then (* Traverse rightwards *)
             a <- walk_row matrix rs (py_range_down ce (cs - 1)) a3 ;;
             Ok (a, rs + 1)
           else Ok (a3, rs)) ;;
  let a4 := fst a4rs in
  let rs := snd a4rs in
  Ok (mk_state rs re cs ce (fst a4) (snd a4)).

(** [while row_start <= row_end and col_start <= col_end: ...] *)
Fixpoint while_loop (fuel : nat) (matrix : grid) (st : state) : outcome state :=
  if (row_start st <=? row_end st) && (col_start st <=? col_end st)
  then match fuel with
       | O => OutOfFuel
       | S fuel' => st' <- loop_body matrix st ;; while_loop fuel' matrix st'
       end
  else Ok st.

(** The function up to its [return], with the ghost reads.  Every pass
    lowers [row_end] by one, so one unit of fuel per row is enough
    ([while_loop_fuel]). *)
Definition traversal_run (matrix : grid) : outcome state :=
  match matrix with
  | [] => Ok (mk_state 0 0 0 0 [] [])
  | _ =>
      row0 <- py_index matrix 0 ;;
      while_loop (length matrix) matrix
        (mk_state 0 (len matrix - 1) 0 (len row0 - 1) [] [])
  end.

Definition counterclockwise_traversal (matrix : grid) : outcome (list Z) :=
  match matrix with
  | [] => Ok []
  | _ => st <- traversal_run matrix ;; Ok (result st)
  end.

(** ** Python strings *)

Definition code (c : ascii) : N := N_of_ascii c.

Definition newline : ascii := ascii_of_N 10.
Definition tab : ascii := ascii_of_N 9.
Definition carriage_return : ascii := ascii_of_N 13.
Definition backslash : ascii := ascii_of_N 92.
Definition single_quote : ascii := ascii_of_N 39.
Definition double_quote : ascii := ascii_of_N 34.
Definition pipe : ascii := "|"%char.

Definition in_range (lo hi n : N) : bool := ((lo <=? n) && (n <=? hi))%N.

(** The characters [str.strip()] removes: those [str.isspace()] accepts. *)
Definition is_space (c : ascii) : bool :=
  in_range 9 13 (code c) || in_range 28 32 (code c)
  || (code c =? 133)%N || (code c =? 160)%N.

Fixpoint lstrip (s : str) : str :=
  match s with
  | [] => []
  | c :: s' => if is_space c then lstrip s' else s
  end.

Definition rstrip (s : str) : str := rev (lstrip (rev s)).

(** [s.strip()] *)
Definition strip (s : str) : str := rstrip (lstrip s).

(** A string that does not begin with white space. *)
Definition clean_start (s : str) : Prop :=
  match s with
  | [] => True
  | c :: _ => is_space c = false
  end.

(** [s.split(sep)] for a separator of one character: never empty. *)
Fixpoint py_split (sep : ascii) (s : str) : list str :=
  match s with
  | [] => [[]]
  | c :: s' =>
      if Ascii.eqb c sep then [] :: py_split sep s'
      else match py_split sep s' with
           | field :: fields => (c :: field) :: fields
           | [] => [[c]]
           end
  end.

(** Truth value of a [str] or a list: not empty. *)
Definition truthy {A : Type} (l : list A) : bool :=
  match l with
  | [] => false
  | _ :: _ => true
  end.

(** *** int(s) *)

(** The white space [int()] skips around the number: the ASCII white space
    of C, and the two other spaces below 256, which the conversion first
    turns into blanks. *)
Definition int_space (c : ascii) : bool :=
  in_range 9 13 (code c) || (code c =? 32)%N
  || (code c =? 133)%N || (code c =? 160)%N.

Fixpoint int_lstrip (s : str) : str :=
  match s with
  | [] => []
  | c :: s' => if int_space c then int_lstrip s' else s
  end.

Definition is_digit (c : ascii) : bool := in_range 48 57 (code c).

Definition digit_value (c : ascii) : Z := Z.of_N (code c) - 48.

(** Decimal digits, single underscores allowed between two digits.
    [after_digit] tells whether the previous character was a digit. *)
Fixpoint parse_digits (acc : Z) (after_digit : bool) (s : str) : option Z :=
  match s with
  | [] => if after_digit then Some acc else None
  | c :: s' =>
      if is_digit c then parse_digits (10 * acc + digit_value c) true s'
      else if Ascii.eqb c "_"%char && after_digit then parse_digits acc false s'
      else None
  end.

Definition parse_int (s : str) : option Z :=
  match rev (int_lstrip (rev (int_lstrip s))) with
  | c :: s' =>
      if Ascii.eqb c "+"%char then parse_digits 0 false s'
      else if Ascii.eqb c "-"%char then option_map Z.opp (parse_digits 0 false s')
      else parse_digits 0 false (c :: s')
  | [] => None
  end.

(** *** repr(s) and str(n) *)

Definition hex_digit (n : N) : ascii :=
  nth (N.to_nat n) (py "0123456789abcdef") "0"%char.

Definition printable (c : ascii) : bool :=
  in_range 32 126 (code c) || (in_range 161 255 (code c) && negb (code c =? 173)%N).

Definition repr_char (quote c : ascii) : str :=
  if Ascii.eqb c quote || Ascii.eqb c backslash then [backslash; c]
  else if Ascii.eqb c tab then [backslash; "t"%char]
  else if Ascii.eqb c newline then [backslash; "n"%char]
  else if Ascii.eqb c carriage_return then [backslash; "r"%char]
  else if printable c then [c]
  else [backslash; "x"%char; hex_digit (code c / 16); hex_digit (code c mod 16)].

Definition has_char (c : ascii) (s : str) : bool := existsb (Ascii.eqb c) s.

Definition py_repr (s : str) : str :=
  let quote :=
    if has_char single_quote s && negb (has_char double_quote s)
    then double_quote else single_quote in
  quote :: flat_map (repr_char quote) s ++ [quote].

(** [str(n)] for an [int], as an f-string formats it. *)
Definition py_str_int (n : Z) : str := py (NilZero.string_of_int (Z.to_int n)).

Definition value_error (text : str) : exn := mk_exn ValueError text.

(** The exception of a failed [int(s)]; the message shows at most 200
    characters of [repr(s)]. *)
Definition int_error (s : str) : exn :=
  value_error (py "invalid literal for int() with base 10: " ++ firstn 200 (py_repr s)).

(** The limit on the digits of a literal, [sys.get_int_max_str_digits()]. *)
Definition max_str_digits : Z := 4300.

(** The string without the white space around it and without its sign. *)
Definition unsigned_part (s : str) : str :=
  match rev (int_lstrip (rev (int_lstrip s))) with
  | c :: s' => if Ascii.eqb c "+"%char || Ascii.eqb c "-"%char then s' else c :: s'
  | [] => []
  end.

(** The digits and underscores a string begins with. *)
Fixpoint digit_run (s : str) : str :=
  match s with
  | [] => []
  | c :: s' => if is_digit c || Ascii.eqb c "_"%char then c :: digit_run s' else []
  end.

Definition count_digits (s : str) : Z := Z.of_nat (length (filter is_digit s)).

(** The exception of [int(s)] on a literal with too many digits. *)
Definition digit_limit_error (digits : Z) : exn :=
  value_error
    (py "Exceeds the limit (4300 digits) for integer string conversion: value has "
     ++ py_str_int digits
     ++ py " digits; use sys.set_int_max_str_digits() to increase the limit").

(** The number of digits of the literal [s] begins with, when that literal
    is well formed and longer than the limit: the conversion counts them
    before it looks at what follows. *)
Definition exceeds_digit_limit (s : str) : option Z :=
  let run := digit_run (unsigned_part s) in
  match parse_digits 0 false run with
  | Some _ => if max_str_digits <? count_digits run then Some (count_digits run) else None
  | None => None
  end.

(** [int(s)] *)
Definition py_int (s : str) : outcome Z :=
  match exceeds_digit_limit s with
  | Some digits => Raise (digit_limit_error digits)
  | None =>
      match parse_int s with
      | Some n => Ok n
      | None => Raise (int_error s)
      end
  end.

(** ** The parsing step *)

(** [row.strip().split('|')[1:-1]] *)
Definition line_fields (row : str) : list str :=
  slice_1_m1 (py_split pipe (strip row)).

(** [[row.strip().split('|')[1:-1] for row in text.split('\n') if row.strip()]] *)
Definition text_rows (text : str) : list (list str) :=
  map line_fields (filter (fun row => truthy (strip row)) (py_split newline text)).

(** [[list(map(int, row)) for row in rows if row]] *)
Definition rows_matrix (rows : list (list str)) : outcome grid :=
  map_outcome (fun row => map_outcome py_int row) (filter truthy rows).

(** Lines 22 to 25: the parsing step of [start_matrix_data]. *)
Definition start_matrix_parse (response_text : str) : outcome grid :=
  let matrix_text := strip response_text in
  let rows := text_rows (strip matrix_text) in
  rows_matrix rows.

(** Lines 93 and 94: the parsing step of [get_matrix]. *)
Definition get_matrix_parse (text : str) : outcome grid :=
  let rows := text_rows (strip text) in
  rows_matrix rows.

(** ** The network and the log *)

(** What the code looks at in the answer to a request.  The two clients
    decode the bytes of a body each in its own way, so the answer carries
    both texts: [body] is what [await response.text()] of aiohttp gives,
    which may raise, and [requests_text] is what [response.text] of
    requests gives.  The reason phrase and the URL of the response are used
    by [raise_for_status] only. *)
Record response : Type := mk_response {
  status : Z;
  reason : str;
  response_url : str;
  body : exn + str;
  requests_text : str
}.

(** One request to a URL either raises or answers. *)
Definition network := str -> exn + response.

Inductive level : Type := ERROR.

(** What a call leaves behind: the URLs requested, the number of bodies
    read and the records the logger emitted, oldest first. *)
Record world : Type := mk_world {
  requests : list str;
  body_reads : nat;
  log : list (level * str)
}.

Definition send_request (url : str) (w : world) : world :=
  mk_world (requests w ++ [url]) (body_reads w) (log w).

Definition read_body (w : world) : world :=
  mk_world (requests w) (S (body_reads w)) (log w).

(** [logger.error(msg)] *)
Definition logger_error (msg : str) (w : world) : world :=
  mk_world (requests w) (body_reads w) (log w ++ [(ERROR, msg)]).

(** ** start_matrix_data *)

(** The exception of [response.raise_for_status()]; its class is outside
    the classes [get_matrix] tells apart. *)
Definition http_error (kind : string) (r : response) : exn :=
  mk_exn OtherException
    (py_str_int (status r) ++ py " " ++ py kind ++ py " Error: " ++ reason r
     ++ py " for url: " ++ response_url r).

Definition raise_for_status (r : response) : outcome unit :=
  if (400 <=? status r) && (status r <? 500) then Raise (http_error "Client" r)
  else if (500 <=? status r) && (status r <? 600) then Raise (http_error "Server" r)
  else Ok tt.

Definition start_matrix_data (net : network) (url : str) (w : world)
  : outcome grid * world :=
  let w := send_request url w in
  match net url with
  | inl e => (Raise e, w)
  | inr r =>
      match raise_for_status r with
      | Ok _ =>
          let w := read_body w in
          (start_matrix_parse (requests_text r), w)
      | Raise e => (Raise e, w)
      | OutOfFuel => (OutOfFuel, w)
      end
  end.

(** ** get_matrix *)

Definition server_error_text (url : str) (st : Z) : str :=
  py "Server error occurred while fetching matrix from " ++ url
  ++ py ". Status code: " ++ py_str_int st.

Definition bad_status_text (url : str) (st : Z) : str :=
  py "Failed to fetch matrix from " ++ url ++ py ". Status code: " ++ py_str_int st.

(** The [try] block, lines 86 to 96. *)
Definition try_block (net : network) (url : str) (w : world)
  : outcome (list Z) * world :=
  let w := send_request url w in
  match net url with
  | inl e => (Raise e, w)
  | inr r =>
      if status r >=? 500 then (Raise (value_error (server_error_text url (status r))), w)
      else if negb (status r =? 200)
      then (Raise (value_error (bad_status_text url (status r))), w)
      else
        let w := read_body w in
        match body r with
        | inl e => (Raise e, w)
        | inr text =>
            (matrix <- get_matrix_parse text ;; counterclockwise_traversal matrix, w)
        end
  end.

(** The [except] clauses, lines 97 to 114, in order: the class a clause
    catches and the message it logs and raises. *)
Definition except_clauses (url : str) : list (exn_class * (exn -> str)) :=
  [ (ClientConnectionError,
     fun e => py "Failed to connect to the server at " ++ url
              ++ py ". Error: " ++ exn_text e);
    (ClientResponseError,
     fun e => py "Received unexpected response from the server at " ++ url
              ++ py ". Error: " ++ exn_text e);
    (ServerTimeoutError,
     fun e => py "Server at " ++ url ++ py " timed out. Error: " ++ exn_text e);
    (ServerDisconnectedError,
     fun e => py "Connection to server at " ++ url
              ++ py " was unexpectedly disconnected. Error: " ++ exn_text e);
    (AsyncioTimeoutError,
     fun _ => py "Connection timeout while fetching matrix from " ++ url);
    (Exception,
     fun e => py "An error occurred while fetching matrix from " ++ url
              ++ py ". Error: " ++ exn_text e) ].

(** The message of the last clause. *)
Definition generic_text (url cause : str) : str :=
  py "An error occurred while fetching matrix from " ++ url
  ++ py ". Error: " ++ cause.

(** The message of the first clause that catches [e], if any does. *)
Fixpoint first_clause (clauses : list (exn_class * (exn -> str))) (e : exn)
  : option str :=
  match clauses with
  | [] => None
  | (c, message) :: rest =>
      if isinstance e c then Some (message e) else first_clause rest e
  end.

Definition get_matrix (net : network) (url : str) (w : world)
  : outcome (list Z) * world :=
  match try_block net url w with
  | (Raise e, w') =>
      match first_clause (except_clauses url) e with
      | Some msg => (Raise (value_error msg), logger_error msg w')
      | None => (Raise e, w')
      end
  | other => other
  end.

(** ** The traversal order, from the specification

    Section 4.2 of the specification, step by step, on index pairs: four
    bounds, the four walks, repeated while the bounds have not crossed.
    These definitions follow the words of the specification, not the code;
    [traversal_follows_spec_order] compares the two. *)

(** The indices from [a] to [b] inclusive, ascending. *)
Fixpoint count_up (a : Z) (n : nat) : list Z :=
  match n with
  | O => []
  | S n' => a :: count_up (a + 1) n'
  end.

Definition from_to (a b : Z) : list Z := count_up a (Z.to_nat (b + 1 - a)).

(** The indices from [a] down to [b] inclusive, descending. *)
Definition from_down_to (a b : Z) : list Z := rev (from_to b a).

Fixpoint spec_rings (rounds : nat) (rowStart rowEnd colStart colEnd : Z)
  : list (Z * Z) :=
  match rounds with
  | O => []
  | S rounds' =>
      if (rowStart <=? rowEnd) && (colStart <=? colEnd) then
        let up := map (fun r => (r, colStart)) (from_to rowStart rowEnd) in
        let colStart := colStart + 1 in
        let left := map (fun c => (rowEnd, c)) (from_to colStart colEnd) in
        let rowEnd := rowEnd - 1 in
        let down :=
          if colStart <=? colEnd
          then map (fun r => (r, colEnd)) (from_down_to rowEnd rowStart) else [] in
        let colEnd := if colStart <=? colEnd then colEnd - 1 else colEnd in
        let right :=
          if rowStart <=? rowEnd
          then map (fun c => (rowStart, c)) (from_down_to colEnd colStart) else [] in
        let rowStart := if rowStart <=? rowEnd then rowStart + 1 else rowStart in
        up ++ left ++ down ++ right
        ++ spec_rings rounds' rowStart rowEnd colStart colEnd
      else []
  end.

(** The cell of a grid at a pair of indices inside it. *)
Definition cell (g : grid) (rc : Z * Z) : Z :=
  nth (Z.to_nat (snd rc)) (nth (Z.to_nat (fst rc)) g []) 0.

Definition spec_order (rows cols : Z) : list (Z * Z) :=
  spec_rings (Z.to_nat rows) 0 (rows - 1) 0 (cols - 1).

Definition spec_traversal (g : grid) : list Z :=
  map (cell g) (spec_order (len g) (len (hd [] g))).

(** The first column of a grid, top to bottom. *)
Definition first_column (g : grid) : list Z := map (fun row => hd 0 row) g.

(** ** The reads of the loop

    What the loop reads when no read fails, computed from the bounds as the
    code updates them. *)

(** The index pairs of one pass, in the order of the four [for] loops. *)
Definition ring (rs re cs ce : Z) : list (Z * Z) :=
  map (fun r => (r, cs)) (py_range rs (re + 1))
  ++ map (fun c => (re, c)) (py_range (cs + 1) (ce + 1))
  ++ (if cs + 1 <=? ce
      then map (fun r => (r, ce)) (py_range_down (re - 1) (rs - 1)) else [])
  ++ (if rs <=? re - 1
      then map (fun c => (rs, c))
             (py_range_down (if cs + 1 <=? ce then ce - 1 else ce) (cs + 1 - 1))
      else []).

(** The local variables after one pass that read without failure. *)
Definition peel (g : grid) (st : state) : state :=
  let rs := row_start st in
  let re := row_end st in
  let cs := col_start st in
  let ce := col_end st in
  mk_state (if rs <=? re - 1 then rs + 1 else rs) (re - 1)
           (cs + 1) (if cs + 1 <=? ce then ce - 1 else ce)
           (result st ++ map (cell g) (ring rs re cs ce))
           (reads st ++ ring rs re cs ce).

(** The index pairs of all the passes. *)
Fixpoint rings (fuel : nat) (rs re cs ce : Z) : list (Z * Z) :=
  match fuel with
  | O => []
  | S fuel' =>
      if (rs <=? re) && (cs <=? ce)
      then ring rs re cs ce
           ++ rings fuel' (if rs <=? re - 1 then rs + 1 else rs) (re - 1)
                (cs + 1) (if cs + 1 <=? ce then ce - 1 else ce)
      else []
  end.

(** The index pairs of the rows [rs..re] and columns [cs..ce], row by row. *)
Definition rect (rs re cs ce : Z) : list (Z * Z) :=
  flat_map (fun r => map (fun c => (r, c)) (py_range cs (ce + 1)))
           (py_range rs (re + 1)).

(** Reading the cells at a list of index pairs, in order, as the [for] loops
    do. *)
Definition read_cells (g : grid) (coords : list (Z * Z))
  (acc : list Z * list (Z * Z)) : outcome (list Z * list (Z * Z)) :=
  for_each (fun a rc => append_cell g a (fst rc) (snd rc)) coords acc.

(** An index pair that names a cell of the grid, whatever its shape. *)
Definition readable (g : grid) (rc : Z * Z) : Prop :=
  0 <= fst rc < len g /\ 0 <= snd rc < len (nth (Z.to_nat (fst rc)) g []).

(** Every row cut to the length of the first one. *)
Definition cut_to_first_row (g : grid) : grid :=
  map (firstn (length (hd [] g))) g.

(** A state whose bounds lie inside a grid of [rows] by [cols]. *)
Definition inside (rows cols : Z) (st : state) : Prop :=
  0 <= row_start st /\ row_end st < rows /\ 0 <= col_start st /\ col_end st < cols.

(** ** Grids *)

(** [rows] rows of [cols] cells each. *)
Definition rectangular (g : grid) (rows cols : Z) : Prop :=
  len g = rows /\ Forall (fun row => len row = cols) g.

(** [a] occurs inside [b]. *)
Definition contains (b a : str) : Prop := exists pre post, b = pre ++ a ++ post.

(** ** Documents in the expected format *)

(** The line [|v1|v2|...|vn|] of a row. *)
Definition format_row (row : list Z) : str :=
  pipe :: flat_map (fun v => py_str_int v ++ [pipe]) row.

(** ['\n'.join(lines)] *)
Fixpoint join_lines (lines : list str) : str :=
  match lines with
  | [] => []
  | [line] => line
  | line :: rest => line ++ newline :: join_lines rest
  end.

(** The document of a grid: one line per row. *)
Definition format_grid (g : grid) : str := join_lines (map format_row g).

(** The number a decimal numeral stands for, most significant digit first,
    continuing from [acc]. *)
Fixpoint eval_uint (acc : N) (d : Decimal.uint) : N :=
  match d with
  | Decimal.Nil => acc
  | Decimal.D0 d => eval_uint (10 * acc) d
  | Decimal.D1 d => eval_uint (10 * acc + 1) d
  | Decimal.D2 d => eval_uint (10 * acc + 2) d
  | Decimal.D3 d => eval_uint (10 * acc + 3) d
  | Decimal.D4 d => eval_uint (10 * acc + 4) d
  | Decimal.D5 d => eval_uint (10 * acc + 5) d
  | Decimal.D6 d => eval_uint (10 * acc + 6) d
  | Decimal.D7 d => eval_uint (10 * acc + 7) d
  | Decimal.D8 d => eval_uint (10 * acc + 8) d
  | Decimal.D9 d => eval_uint (10 * acc + 9) d
  end%N.

(** The characters of a decimal numeral. *)
Definition uint_chars (d : Decimal.uint) : str :=
  list_ascii_of_string (NilEmpty.string_of_uint d).

(** A character of [str(n)]: a digit or the minus sign. *)
Definition number_char (c : ascii) : bool := is_digit c || Ascii.eqb c "-"%char.

(** Every cell is written by [str] in at most 4300 characters, so that
    [int] accepts it back. *)
Definition within_digit_limit (g : grid) : Prop :=
  Forall (Forall (fun v => Z.of_nat (length (py_str_int v)) <= max_str_digits)) g.

(** The integer a field stands for, when it stands for one. *)
Definition int_value (field : str) : Z :=
  match parse_int field with
  | Some n => n
  | None => 0
  end.

(** [get_matrix] ends by logging and raising the [ValueError] that stands
    for [e], the exception raised in its [try] block when the world was
    [w1]: the message names the URL and the cause, is logged once at
    severity [ERROR], and one request has been sent. *)
Definition normalizes (net : network) (url : str) (w w1 : world) (e : exn) : Prop :=
  exists msg,
    get_matrix net url w = (Raise (value_error msg), logger_error msg w1)
    /\ contains msg url
    /\ (exn_cls e <> AsyncioTimeoutError -> contains msg (exn_text e))
    /\ (exn_cls e = AsyncioTimeoutError -> contains msg (py "Connection timeout"))
    /\ log (snd (get_matrix net url w)) = log w ++ [(ERROR, msg)]
    /\ requests (snd (get_matrix net url w)) = requests w ++ [url].

(** The classes of the five clauses that come before [except Exception]. *)
Definition specific_classes : list exn_class :=
  [ClientConnectionError; ClientResponseError; ServerTimeoutError;
   ServerDisconnectedError; AsyncioTimeoutError].

(** [s] begins with [p]. *)
Definition starts_with (s p : str) : Prop := exists rest, s = p ++ rest.

(** ** The view

    [MatrixTraversalView.post] of [views.py].  The request carries the value
    of its key [url], if it has one.  The answer of the network may change
    from one request to the next: [nets n] is the network as it answers
    the request sent after [n] earlier ones. *)

Inductive payload : Type :=
| error_payload (message : str)
| data_payload (data : list Z).

(** [Response(payload, status=...)] *)
Record reply : Type := mk_reply { reply_status : Z; reply_payload : payload }.

(** The rows created so far: the arguments [start_matrix] and [matrix_data]
    of the calls of [Matrix.objects.create] that returned, oldest first. *)
Definition database := list (grid * list Z).

(** What the code takes from outside this file: whether
    [Matrix.objects.create] and the constructor of [MatrixSerializer] raise
    on a row, and what. *)
Record framework : Type := mk_framework {
  create_raises : grid -> list Z -> option exn;
  serializer_raises : grid -> list Z -> option exn
}.

(** The [try] block, lines 27 to 35. *)
Definition post_try (fw : framework) (nets : nat -> network) (url : str)
  (w : world) (db : database) : outcome reply * world * database :=
  match get_matrix (nets (length (requests w))) url w with
  | (Ok travers_matrix, w1) =>
      match start_matrix_data (nets (length (requests w1))) url w1 with
      | (Ok start_data, w2) =>
          match create_raises fw start_data travers_matrix with
          | Some e => (Raise e, w2, db)
          | None =>
              let db' := db ++ [(start_data, travers_matrix)] in
              match serializer_raises fw start_data travers_matrix with
              | Some e => (Raise e, w2, db')
              | None => (Ok (mk_reply 200 (data_payload travers_matrix)), w2, db')
              end
          end
      | (Raise e, w2) => (Raise e, w2, db)
      | (OutOfFuel, w2) => (OutOfFuel, w2, db)
      end
  | (Raise e, w1) => (Raise e, w1, db)
  | (OutOfFuel, w1) => (OutOfFuel, w1, db)
  end.

Definition post (fw : framework) (nets : nat -> network) (url : option str)
  (w : world) (db : database) : outcome reply * world * database :=
  match url with
  | Some (c :: u) =>
      match post_try fw nets (c :: u) w db with
      | (Raise e, w', db') =>
          if isinstance e ValueError
          then (Ok (mk_reply 400 (error_payload (exn_text e))), w', db')
          else (Raise e, w', db')
      | other => other
      end
  | _ => (Ok (mk_reply 400 (error_payload (py "source_url is required"))), w, db)
  end.

(** A framework in which nothing raises. *)
Definition quiet_framework : framework :=
  mk_framework (fun _ _ => None) (fun _ _ => None).

(** ** The reference document *)

Definition reference_body : str :=
  py "|10|20|30|40|" ++ [newline] ++ py "|50|60|70|80|" ++ [newline]
  ++ py "|90|100|110|120|" ++ [newline] ++ py "|130|140|150|160|".

Definition reference_grid : grid :=
  [[10; 20; 30; 40]; [50; 60; 70; 80]; [90; 100; 110; 120]; [130; 140; 150; 160]].

(** The list of [main], lines 124 to 129. *)
Definition traversal : list Z :=
  [10; 50; 90; 130; 140; 150; 160; 120; 80; 40; 30; 20; 60; 100; 110; 70].

(** ** main *)

Definition source_url : str :=
  py "https://raw.githubusercontent.com/Real-Estate-THE-Capital/python-assignment/main/matrix.txt".

(** The exception of a failed [assert] without a message. *)
Definition assertion_error : exn := mk_exn OtherException [].

(** [main], with the lines it prints. *)
Definition main (net : network) (w : world) : outcome unit * world * list str :=
  match get_matrix net source_url w with
  | (Ok result, w') =>
      if list_eq_dec Z.eq_dec result traversal
      then (Ok tt, w', [py "Test passed successfully."])
      else (Raise assertion_error, w', [])
  | (Raise e, w') => (Raise e, w', [])
  | (OutOfFuel, w') => (OutOfFuel, w', [])
  end.

(** ** Sample inputs *)

Definition example_url : str := py "http://host/m.txt".

(** A network that answers every request with the given status and body,
    which both clients decode to the same text. *)
Definition answer (st : Z) (text : str) : network :=
  fun _ => inr (mk_response st (py "") example_url (inr text) text).

Definition fresh_world : world := mk_world [] 0 [].

(** The answer 200 with a body that both clients decode to [text]. *)
Definition served (text : str) : response :=
  mk_response 200 (py "OK") source_url (inr text) text.

(** * Properties *)

(** ** Ranges *)

Lemma map_seq_count_up (a : Z) (k n : nat) :
  map (fun i => a + Z.of_nat i) (seq k n) = count_up (a + Z.of_nat k) n.
Proof.
  revert k. induction n as [|n IH]; intro k; simpl.
  - reflexivity.
  - f_equal. rewrite IH. f_equal. lia.
Qed.

Lemma py_range_count_up (a b : Z) : py_range a b = count_up a (Z.to_nat (b - a)).
Proof.
  unfold py_range. rewrite map_seq_count_up. f_equal. lia.
Qed.

Lemma count_up_snoc (a : Z) (n : nat) :
  count_up a (S n) = count_up a n ++ [a + Z.of_nat n].
Proof.
  revert a. induction n as [|n IH]; intro a.
  - simpl. f_equal. lia.
  - change (count_up a (S (S n))) with (a :: count_up (a + 1) (S n)).
    rewrite IH. simpl. do 3 f_equal. lia.
Qed.

Lemma in_count_up (a : Z) (n : nat) (x : Z) :
  In x (count_up a n) <-> a <= x < a + Z.of_nat n.
Proof.
  revert a. induction n as [|n IH]; intro a; simpl.
  - lia.
  - rewrite IH. lia.
Qed.

Lemma py_range_nil (a b : Z) : b <= a -> py_range a b = [].
Proof.
  intro H. rewrite py_range_count_up.
  replace (Z.to_nat (b - a)) with 0%nat by lia. reflexivity.
Qed.

Lemma py_range_cons (a b : Z) : a < b -> py_range a b = a :: py_range (a + 1) b.
Proof.
  intro H. rewrite !py_range_count_up.
  replace (Z.to_nat (b - a)) with (S (Z.to_nat (b - (a + 1)))) by lia.
  reflexivity.
Qed.

Lemma py_range_snoc (a b : Z) : a < b -> py_range a b = py_range a (b - 1) ++ [b - 1].
Proof.
  intro H. rewrite !py_range_count_up.
  replace (Z.to_nat (b - a)) with (S (Z.to_nat (b - 1 - a))) by lia.
  rewrite count_up_snoc. do 2 f_equal. lia.
Qed.

Lemma in_py_range (a b x : Z) : In x (py_range a b) <-> a <= x < b.
Proof. rewrite py_range_count_up, in_count_up. lia. Qed.

Lemma map_seq_count_down (a : Z) (n : nat) :
  map (fun i => a - Z.of_nat i) (seq 0 n) = rev (count_up (a - Z.of_nat n + 1) n).
Proof.
  induction n as [|n IH].
  - reflexivity.
  - rewrite seq_S, map_app, IH. cbn [count_up rev map Nat.add].
    replace (a - Z.of_nat (S n) + 1 + 1) with (a - Z.of_nat n + 1) by lia.
    do 2 f_equal. lia.
Qed.

Lemma py_range_down_rev (a b : Z) : py_range_down a b = rev (py_range (b + 1) (a + 1)).
Proof.
  rewrite py_range_count_up. unfold py_range_down.
  rewrite map_seq_count_down.
  replace (a + 1 - (b + 1)) with (a - b) by lia.
  destruct (Z_le_gt_dec a b) as [Hle|Hgt].
  - replace (Z.to_nat (a - b)) with 0%nat by lia. reflexivity.
  - do 2 f_equal. lia.
Qed.

Lemma py_range_down_nil (a b : Z) : a <= b -> py_range_down a b = [].
Proof.
  intro H. rewrite py_range_down_rev, py_range_nil by lia. reflexivity.
Qed.

Lemma in_py_range_down (a b x : Z) : In x (py_range_down a b) <-> b < x <= a.
Proof. rewrite py_range_down_rev, <- in_rev, in_py_range. lia. Qed.

Lemma py_range_from_to (a b : Z) : py_range a (b + 1) = from_to a b.
Proof. apply py_range_count_up. Qed.

Lemma py_range_down_from_down_to (a b : Z) : py_range_down a (b - 1) = from_down_to a b.
Proof.
  rewrite py_range_down_rev. unfold from_down_to.
  rewrite <- py_range_from_to. do 2 f_equal. lia.
Qed.

(** ** Reading inside a rectangular grid *)

Lemma py_index_inside {A : Type} (l : list A) (i : Z) (d : A) :
  0 <= i < len l -> py_index l i = Ok (nth (Z.to_nat i) l d).
Proof.
  intro H. unfold py_index.
  destruct (Z.ltb_spec i 0) as [Hneg|_]; [lia|].
  destruct (Z.leb_spec 0 i) as [_|Hneg]; [|lia].
  destruct (Z.ltb_spec i (len l)) as [_|Hbig]; [|lia].
  simpl. unfold len in H.
  destruct (nth_error l (Z.to_nat i)) as [a|] eqn:E.
  - f_equal. symmetry. apply nth_error_nth. exact E.
  - apply nth_error_None in E. lia.
Qed.

Section Rectangular.

Variables (g : grid) (rows cols : Z).
Hypothesis Hrect : rectangular g rows cols.

Lemma row_length (r : Z) : 0 <= r < rows -> len (nth (Z.to_nat r) g []) = cols.
Proof.
  intro H. destruct Hrect as [Hlen Hrows].
  rewrite Forall_forall in Hrows. apply Hrows. apply nth_In.
  unfold len in Hlen. lia.
Qed.

Lemma append_cell_inside (acc : list Z * list (Z * Z)) (r c : Z) :
  0 <= r < rows -> 0 <= c < cols ->
  append_cell g acc r c = Ok (fst acc ++ [cell g (r, c)], snd acc ++ [(r, c)]).
Proof.
  intros Hr Hc. unfold append_cell.
  rewrite (py_index_inside g r []) by (destruct Hrect as [-> _]; exact Hr).
  cbn [bind].
  rewrite (py_index_inside _ c 0) by (rewrite row_length by exact Hr; exact Hc).
  reflexivity.
Qed.

Lemma walk_column_inside (c : Z) (xs : list Z) (acc : list Z * list (Z * Z)) :
  0 <= c < cols -> (forall x, In x xs -> 0 <= x < rows) ->
  walk_column g c xs acc
  = Ok (fst acc ++ map (cell g) (map (fun r => (r, c)) xs),
        snd acc ++ map (fun r => (r, c)) xs).
Proof.
  intros Hc. unfold walk_column. revert acc.
  induction xs as [|x xs IH]; intros acc Hxs.
  - simpl. rewrite !app_nil_r. destruct acc; reflexivity.
  - cbn [for_each]. rewrite append_cell_inside by (auto using in_eq).
    cbn [bind]. rewrite IH by (intros; apply Hxs; right; assumption).
    cbn [fst snd map]. rewrite <- !app_assoc. reflexivity.
Qed.

Lemma walk_row_inside (r : Z) (xs : list Z) (acc : list Z * list (Z * Z)) :
  0 <= r < rows -> (forall x, In x xs -> 0 <= x < cols) ->
  walk_row g r xs acc
  = Ok (fst acc ++ map (cell g) (map (fun c => (r, c)) xs),
        snd acc ++ map (fun c => (r, c)) xs).
Proof.
  intros Hr. unfold walk_row. revert acc.
  induction xs as [|x xs IH]; intros acc Hxs.
  - simpl. rewrite !app_nil_r. destruct acc; reflexivity.
  - cbn [for_each]. rewrite append_cell_inside by (auto using in_eq).
    cbn [bind]. rewrite IH by (intros; apply Hxs; right; assumption).
    cbn [fst snd map]. rewrite <- !app_assoc. reflexivity.
Qed.

Lemma loop_body_peel (st : state) :
  inside rows cols st ->
  row_start st <= row_end st -> col_start st <= col_end st ->
  loop_body g st = Ok (peel g st).
Proof.
  intros (Hrs & Hre & Hcs & Hce) Hr Hc.
  unfold loop_body, peel, ring.
  rewrite walk_column_inside
    by (try lia; intros x Hx; apply in_py_range in Hx; lia).
  cbn [bind].
  rewrite walk_row_inside
    by (try lia; intros x Hx; apply in_py_range in Hx; lia).
  cbn [bind fst snd].
  destruct (Z.leb_spec (col_start st + 1) (col_end st)) as [Hd|Hd];
    destruct (Z.leb_spec (row_start st) (row_end st - 1)) as [Hu|Hu].
  all: repeat first
    [ rewrite walk_column_inside
        by (try lia; intros x Hx; apply in_py_range_down in Hx; lia)
    | rewrite walk_row_inside
        by (try lia; intros x Hx; apply in_py_range_down in Hx; lia)
    | progress cbn [bind fst snd] ].
  all: rewrite ?map_app, ?app_nil_r, <- ?app_assoc; reflexivity.
Qed.

Lemma peel_inside (st : state) :
  inside rows cols st -> inside rows cols (peel g st).
Proof.
  unfold inside, peel. cbn [row_start row_end col_start col_end].
  intros (Hrs & Hre & Hcs & Hce).
  destruct (Z.leb_spec (row_start st) (row_end st - 1));
    destruct (Z.leb_spec (col_start st + 1) (col_end st)); lia.
Qed.

(** With one unit of fuel per remaining row the loop ends, having read
    exactly [rings]. *)
Lemma while_loop_rings (fuel : nat) (st : state) :
  inside rows cols st ->
  row_end st - row_start st + 1 <= Z.of_nat fuel ->
  exists st',
    while_loop fuel g st = Ok st'
    /\ reads st' = reads st
         ++ rings fuel (row_start st) (row_end st) (col_start st) (col_end st)
    /\ result st' = result st
         ++ map (cell g)
              (rings fuel (row_start st) (row_end st) (col_start st) (col_end st)).
Proof.
  revert st. induction fuel as [|fuel IH]; intros st Hin Hfuel.
  - exists st. cbn [while_loop rings].
    destruct (Z.leb_spec (row_start st) (row_end st)) as [Hle|_]; [lia|].
    cbn [andb map]. rewrite !app_nil_r. auto.
  - cbn [while_loop rings].
    destruct (Z.leb_spec (row_start st) (row_end st)) as [Hr|_];
      [destruct (Z.leb_spec (col_start st) (col_end st)) as [Hc|_]|];
      cbn [andb map].
    + rewrite loop_body_peel by assumption. cbn [bind].
      destruct (IH (peel g st)) as (st' & Hrun & Hreads & Hresult).
      * apply peel_inside, Hin.
      * unfold peel. cbn [row_start row_end].
        destruct (Z.leb_spec (row_start st) (row_end st - 1)); lia.
      * exists st'. split; [exact Hrun|].
        rewrite Hreads, Hresult. unfold peel.
        cbn [row_start row_end col_start col_end result reads].
        rewrite map_app, <- !app_assoc. auto.
    + exists st. rewrite !app_nil_r. auto.
    + exists st. rewrite !app_nil_r. auto.
Qed.

End Rectangular.

(** ** The loop ends on every grid *)

Lemma for_each_not_out_of_fuel {S X : Type} (body : S -> X -> outcome S)
  (xs : list X) (s : S) :
  (forall s x, body s x <> OutOfFuel) -> for_each body xs s <> OutOfFuel.
Proof.
  intro Hbody. revert s. induction xs as [|x xs IH]; intro s; cbn [for_each].
  - discriminate.
  - specialize (Hbody s x). destruct (body s x); cbn [bind];
      [apply IH | discriminate | contradiction].
Qed.

Lemma py_index_not_out_of_fuel {A : Type} (l : list A) (i : Z) :
  py_index l i <> OutOfFuel.
Proof.
  unfold py_index.
  destruct (_ && _); [destruct (nth_error _ _)|]; discriminate.
Qed.

Lemma append_cell_not_out_of_fuel (g : grid) acc (r c : Z) :
  append_cell g acc r c <> OutOfFuel.
Proof.
  unfold append_cell.
  pose proof (py_index_not_out_of_fuel g r) as H.
  destruct (py_index g r) as [row| |]; cbn [bind]; [|discriminate|contradiction].
  pose proof (py_index_not_out_of_fuel row c) as H'.
  destruct (py_index row c); cbn [bind]; [discriminate|discriminate|contradiction].
Qed.

(** One pass leaves the loop's variables as [peel] says, whether or not it
    raises on the way. *)
Lemma loop_body_bounds (g : grid) (st st' : state) :
  loop_body g st = Ok st' ->
  row_end st' = row_end st - 1 /\ row_start st <= row_start st'.
Proof.
  unfold loop_body, walk_column, walk_row.
  destruct (for_each _ (py_range (row_start st) _) _) as [a1| |];
    cbn [bind]; try discriminate.
  destruct (for_each _ (py_range (col_start st + 1) _) _) as [a2| |];
    cbn [bind]; try discriminate.
  destruct (col_start st + 1 <=? col_end st).
  - destruct (for_each _ (py_range_down _ _) _) as [a3| |];
      cbn [bind fst snd]; try discriminate.
    destruct (Z.leb_spec (row_start st) (row_end st - 1)).
    + destruct (for_each _ (py_range_down _ _) _) as [a4| |];
        cbn [bind fst snd]; try discriminate.
      intros [= <-]. cbn. lia.
    + cbn [bind fst snd]. intros [= <-]. cbn. lia.
  - cbn [bind fst snd].
    destruct (Z.leb_spec (row_start st) (row_end st - 1)).
    + destruct (for_each _ (py_range_down _ _) _) as [a4| |];
        cbn [bind fst snd]; try discriminate.
      intros [= <-]. cbn. lia.
    + cbn [bind fst snd]. intros [= <-]. cbn. lia.
Qed.

Lemma loop_body_not_out_of_fuel (g : grid) (st : state) :
  loop_body g st <> OutOfFuel.
Proof.
  assert (Hc : forall c rows acc, walk_column g c rows acc <> OutOfFuel)
    by (intros; apply for_each_not_out_of_fuel; intros;
        apply append_cell_not_out_of_fuel).
  assert (Hr : forall r cols acc, walk_row g r cols acc <> OutOfFuel)
    by (intros; apply for_each_not_out_of_fuel; intros;
        apply append_cell_not_out_of_fuel).
  unfold loop_body.
  repeat match goal with
  | |- context [walk_column ?m ?c ?xs ?a] =>
      let H := fresh in
      pose proof (Hc c xs a) as H;
      destruct (walk_column m c xs a); cbn [bind fst snd];
      [|discriminate|contradiction]
  | |- context [walk_row ?m ?r ?xs ?a] =>
      let H := fresh in
      pose proof (Hr r xs a) as H;
      destruct (walk_row m r xs a); cbn [bind fst snd];
      [|discriminate|contradiction]
  | |- context [if ?b then _ else _] => destruct b; cbn [bind fst snd]
  end; discriminate.
Qed.

(** One unit of fuel per remaining row is enough, rectangular grid or
    not. *)
Lemma while_loop_fuel (g : grid) (fuel : nat) (st : state) :
  row_end st - row_start st + 1 <= Z.of_nat fuel ->
  while_loop fuel g st <> OutOfFuel.
Proof.
  revert st. induction fuel as [|fuel IH]; intros st Hfuel; cbn [while_loop].
  - destruct (Z.leb_spec (row_start st) (row_end st)); [lia|].
    cbn [andb]. discriminate.
  - destruct (_ && _); [|discriminate].
    pose proof (loop_body_not_out_of_fuel g st) as Hbody.
    destruct (loop_body g st) as [st'| |] eqn:E; cbn [bind];
      [|discriminate|contradiction].
    apply loop_body_bounds in E. apply IH. lia.
Qed.

(** More fuel does not change what the loop returns or raises. *)
Lemma while_loop_more_fuel (g : grid) (fuel extra : nat) (st : state) :
  while_loop fuel g st <> OutOfFuel ->
  while_loop (fuel + extra) g st = while_loop fuel g st.
Proof.
  revert st. induction fuel as [|fuel IH]; intros st; cbn [while_loop Nat.add].
  - destruct (_ && _) eqn:E; [contradiction|]. intros _.
    destruct extra; cbn [while_loop]; rewrite E; reflexivity.
  - destruct (_ && _); [|reflexivity].
    destruct (loop_body g st) as [st'| |]; cbn [bind]; auto.
Qed.

Lemma traversal_run_not_out_of_fuel (g : grid) : traversal_run g <> OutOfFuel.
Proof.
  destruct g as [|row0 g']; [discriminate|].
  unfold traversal_run.
  rewrite (py_index_inside _ 0 []) by (unfold len; simpl length; lia).
  cbn [bind]. apply while_loop_fuel. cbn [row_start row_end]. unfold len. lia.
Qed.

Lemma traversal_not_out_of_fuel (g : grid) : counterclockwise_traversal g <> OutOfFuel.
Proof.
  destruct g as [|row0 g']; [discriminate|].
  unfold counterclockwise_traversal.
  pose proof (traversal_run_not_out_of_fuel (row0 :: g')) as H.
  destruct (traversal_run (row0 :: g')); cbn [bind];
    [discriminate|discriminate|contradiction].
Qed.

(** ** The passes cover the grid *)

Lemma rect_no_rows (rs re cs ce : Z) : re < rs -> rect rs re cs ce = [].
Proof. intro H. unfold rect. rewrite (py_range_nil rs) by lia. reflexivity. Qed.

Lemma rect_no_cols (rs re cs ce : Z) : ce < cs -> rect rs re cs ce = [].
Proof.
  intro H. unfold rect. rewrite (py_range_nil cs) by lia.
  induction (py_range rs (re + 1)); simpl; auto.
Qed.

Lemma in_rect (rs re cs ce : Z) (rc : Z * Z) :
  In rc (rect rs re cs ce) <-> rs <= fst rc <= re /\ cs <= snd rc <= ce.
Proof.
  unfold rect. rewrite in_flat_map. split.
  - intros (r & Hr & Hin). apply in_map_iff in Hin as (c & <- & Hc).
    apply in_py_range in Hr, Hc. simpl. lia.
  - intros [Hr Hc]. exists (fst rc). split.
    + apply in_py_range. lia.
    + apply in_map_iff. exists (snd rc). split.
      * destruct rc; reflexivity.
      * apply in_py_range. lia.
Qed.

(** Taking the first or the last element of every row apart. *)
Lemma flat_map_cons_perm {X Y : Type} (f : X -> Y) (h : X -> list Y) (l : list X) :
  Permutation (flat_map (fun x => f x :: h x) l) (map f l ++ flat_map h l).
Proof.
  induction l as [|x l IH]; simpl.
  - constructor.
  - constructor. rewrite IH. apply Permutation_app_swap_app.
Qed.

Lemma flat_map_snoc_perm {X Y : Type} (f : X -> Y) (h : X -> list Y) (l : list X) :
  Permutation (flat_map (fun x => h x ++ [f x]) l) (flat_map h l ++ map f l).
Proof.
  induction l as [|x l IH]; simpl.
  - constructor.
  - rewrite IH, <- !app_assoc. apply Permutation_app_head.
    apply (Permutation_middle (flat_map h l) (map f l) (f x)).
Qed.

Lemma rect_left_column (rs re cs ce : Z) :
  cs <= ce ->
  Permutation (rect rs re cs ce)
    (map (fun r => (r, cs)) (py_range rs (re + 1)) ++ rect rs re (cs + 1) ce).
Proof.
  intro H. unfold rect. rewrite (py_range_cons cs) by lia. cbn [map].
  apply (flat_map_cons_perm (fun r => (r, cs))).
Qed.

Lemma rect_right_column (rs re cs ce : Z) :
  cs <= ce ->
  Permutation (rect rs re cs ce)
    (rect rs re cs (ce - 1) ++ map (fun r => (r, ce)) (py_range rs (re + 1))).
Proof.
  intro H. unfold rect. rewrite (py_range_snoc cs (ce + 1)) by lia.
  replace (ce + 1 - 1) with ce by lia. replace (ce - 1 + 1) with ce by lia.
  rewrite <- (flat_map_snoc_perm (fun r => (r, ce))).
  erewrite flat_map_ext; [reflexivity|].
  intro r. cbv beta. rewrite map_app. reflexivity.
Qed.

Lemma rect_bottom_row (rs re cs ce : Z) :
  rs <= re ->
  rect rs re cs ce
  = rect rs (re - 1) cs ce ++ map (fun c => (re, c)) (py_range cs (ce + 1)).
Proof.
  intro H. unfold rect. rewrite (py_range_snoc rs (re + 1)) by lia.
  replace (re + 1 - 1) with re by lia. replace (re - 1 + 1) with re by lia.
  rewrite flat_map_app. simpl. rewrite app_nil_r. reflexivity.
Qed.

Lemma rect_top_row (rs re cs ce : Z) :
  rs <= re ->
  rect rs re cs ce
  = map (fun c => (rs, c)) (py_range cs (ce + 1)) ++ rect (rs + 1) re cs ce.
Proof.
  intro H. unfold rect. rewrite (py_range_cons rs) by lia. reflexivity.
Qed.

(** One pass takes the border of the rectangle and leaves its inside. *)
Lemma ring_peels_rect (rs re cs ce : Z) :
  rs <= re -> cs <= ce ->
  Permutation
    (ring rs re cs ce
     ++ rect (if rs <=? re - 1 then rs + 1 else rs) (re - 1)
          (cs + 1) (if cs + 1 <=? ce then ce - 1 else ce))
    (rect rs re cs ce).
Proof.
  intros Hr Hc. unfold ring.
  rewrite (rect_left_column rs re cs ce) by assumption.
  rewrite <- app_assoc. apply Permutation_app_head.
  rewrite (rect_bottom_row rs re (cs + 1) ce) by assumption.
  rewrite <- app_assoc.
  rewrite (Permutation_app_comm (rect rs (re - 1) (cs + 1) ce)).
  apply Permutation_app_head.
  destruct (Z.leb_spec (cs + 1) ce) as [Hd|Hd].
  - rewrite (rect_right_column rs (re - 1) (cs + 1) ce) by assumption.
    rewrite <- app_assoc.
    rewrite (Permutation_app_comm (rect rs (re - 1) (cs + 1) (ce - 1))).
    apply Permutation_app.
    + rewrite py_range_down_rev, map_rev.
      replace (rs - 1 + 1) with rs by lia. symmetry. apply Permutation_rev.
    + destruct (Z.leb_spec rs (re - 1)) as [Hu|Hu].
      * rewrite (rect_top_row rs (re - 1) (cs + 1) (ce - 1)) by assumption.
        apply Permutation_app_tail.
        rewrite py_range_down_rev, map_rev.
        replace (cs + 1 - 1 + 1) with (cs + 1) by lia.
        symmetry. apply Permutation_rev.
      * rewrite !rect_no_rows by lia. constructor.
  - cbn [app]. rewrite (rect_no_cols rs (re - 1)) by lia.
    destruct (Z.leb_spec rs (re - 1)) as [Hu|Hu].
    + rewrite py_range_down_nil by lia. rewrite rect_no_cols by lia. constructor.
    + rewrite rect_no_cols by lia. constructor.
Qed.

Lemma rings_cover_rect (fuel : nat) (rs re cs ce : Z) :
  re - rs + 1 <= Z.of_nat fuel ->
  Permutation (rings fuel rs re cs ce) (rect rs re cs ce).
Proof.
  revert rs re cs ce. induction fuel as [|fuel IH]; intros rs re cs ce Hfuel;
    cbn [rings].
  - rewrite rect_no_rows by lia. constructor.
  - destruct (Z.leb_spec rs re) as [Hr|Hr];
      [destruct (Z.leb_spec cs ce) as [Hc|Hc]|]; cbn [andb].
    + rewrite <- (ring_peels_rect rs re cs ce) by assumption.
      apply Permutation_app_head. apply IH.
      destruct (Z.leb_spec rs (re - 1)); lia.
    + rewrite rect_no_cols by lia. constructor.
    + rewrite rect_no_rows by lia. constructor.
Qed.

(** The loop's own order is the order of the specification. *)
Lemma rings_spec_rings (fuel : nat) (rs re cs ce : Z) :
  rings fuel rs re cs ce = spec_rings fuel rs re cs ce.
Proof.
  revert rs re cs ce. induction fuel as [|fuel IH]; intros rs re cs ce;
    cbn [rings spec_rings].
  - reflexivity.
  - destruct (_ && _); [|reflexivity].
    unfold ring. rewrite IH, !py_range_from_to.
    replace (cs + 1 - 1) with (cs + 1 - 1 + 1 - 1) by lia.
    rewrite !py_range_down_from_down_to.
    replace (cs + 1 - 1 + 1) with (cs + 1) by lia.
    rewrite <- !app_assoc. reflexivity.
Qed.

(** ** The cells of a rectangular grid *)

Lemma map_nth_seq_all {A : Type} (l : list A) (d : A) :
  map (fun k => nth k l d) (seq 0 (length l)) = l.
Proof.
  induction l as [|a l IH]; simpl.
  - reflexivity.
  - f_equal. rewrite <- seq_shift, map_map. exact IH.
Qed.

Lemma map_nth_py_range {A : Type} (l : list A) (d : A) :
  map (fun i => nth (Z.to_nat i) l d) (py_range 0 (len l)) = l.
Proof.
  unfold py_range, len. rewrite map_map.
  replace (Z.to_nat (Z.of_nat (length l) - 0)) with (length l) by lia.
  transitivity (map (fun k => nth k l d) (seq 0 (length l))).
  - apply map_ext. intro k. f_equal. lia.
  - apply map_nth_seq_all.
Qed.

Lemma cells_of_rect (g : grid) (rows cols : Z) :
  rectangular g rows cols ->
  map (cell g) (rect 0 (rows - 1) 0 (cols - 1)) = concat g.
Proof.
  intro Hrect. unfold rect.
  rewrite flat_map_concat_map, concat_map, map_map. f_equal.
  replace (rows - 1 + 1) with (len g) by (destruct Hrect; lia).
  transitivity (map (fun r => nth (Z.to_nat r) g []) (py_range 0 (len g)));
    [|apply map_nth_py_range].
  apply map_ext_in. intros r Hr. apply in_py_range in Hr.
  rewrite map_map. unfold cell. cbn [fst snd].
  replace (cols - 1 + 1) with cols by lia.
  rewrite <- (row_length g rows cols Hrect r) by (destruct Hrect; lia).
  apply map_nth_py_range.
Qed.

Lemma length_concat_rectangular (g : grid) (rows cols : Z) :
  rectangular g rows cols -> len (concat g) = rows * cols.
Proof.
  intros [<- Hrows]. unfold len. induction Hrows as [|row g Hrow _ IH].
  - reflexivity.
  - simpl concat. rewrite length_app. unfold len in Hrow. simpl length. nia.
Qed.

(** What [traversal_run] returns on a rectangular grid that has a row. *)
Lemma traversal_run_rectangular (g : grid) (rows cols : Z) :
  rectangular g rows cols -> 0 < rows ->
  exists st,
    traversal_run g = Ok st
    /\ reads st = rings (length g) 0 (rows - 1) 0 (cols - 1)
    /\ result st = map (cell g) (rings (length g) 0 (rows - 1) 0 (cols - 1)).
Proof.
  intros Hrect Hrows.
  assert (Hlen : len g = rows) by (destruct Hrect; assumption).
  destruct g as [|row0 g']; [unfold len in Hlen; simpl in Hlen; lia|].
  unfold traversal_run.
  rewrite (py_index_inside _ 0 []) by lia. cbn [bind].
  change (nth (Z.to_nat 0) (row0 :: g') []) with row0.
  assert (Hrow0 : len row0 = cols).
  { destruct Hrect as [_ Hall]. inversion Hall; assumption. }
  rewrite Hlen, Hrow0.
  destruct (while_loop_rings (row0 :: g') rows cols Hrect (length (row0 :: g'))
              (mk_state 0 (rows - 1) 0 (cols - 1) [] []))
    as (st & Hrun & Hreads & Hresult).
  - unfold inside. cbn. lia.
  - cbn [row_start row_end]. unfold len in Hlen. lia.
  - exists st. auto.
Qed.

(** ** The traversal of a rectangular grid *)

Lemma nth_0_hd {A : Type} (l : list A) (d : A) : nth 0 l d = hd d l.
Proof. destruct l; reflexivity. Qed.

Lemma counterclockwise_traversal_run (g : grid) (st : state) :
  traversal_run g = Ok st -> counterclockwise_traversal g = Ok (result st).
Proof.
  intro H. destruct g as [|row0 g'].
  - injection H as <-. reflexivity.
  - unfold counterclockwise_traversal. rewrite H. reflexivity.
Qed.

(** C1.  On a grid of [rows] rows of [cols] cells each, with [rows] and
    [cols] positive, [counterclockwise_traversal] returns a list of
    [rows * cols] values that is a permutation of the cells of the grid:
    every value occurs in it as often as it occurs in the grid. *)
Theorem traversal_is_permutation (g : grid) (rows cols : Z) :
  rectangular g rows cols -> 0 < rows -> 0 < cols ->
  exists out,
    counterclockwise_traversal g = Ok out
    /\ len out = rows * cols
    /\ Permutation out (concat g).
Proof.
  intros Hrect Hrows _.
  destruct (traversal_run_rectangular g rows cols Hrect Hrows)
    as (st & Hrun & _ & Hresult).
  assert (Hperm : Permutation (result st) (concat g)).
  { rewrite Hresult, <- (cells_of_rect g rows cols Hrect).
    apply Permutation_map, rings_cover_rect.
    destruct Hrect as [Hlen _]. unfold len in Hlen. lia. }
  exists (result st). split; [|split].
  - apply counterclockwise_traversal_run, Hrun.
  - unfold len. rewrite (Permutation_length Hperm).
    apply (length_concat_rectangular g rows cols Hrect).
  - exact Hperm.
Qed.

Lemma traversal_is_permutation_witness :
  exists out,
    counterclockwise_traversal [[1; 2; 3]; [4; 5; 6]] = Ok out
    /\ len out = 2 * 3
    /\ Permutation out (concat [[1; 2; 3]; [4; 5; 6]]).
Proof.
  apply (traversal_is_permutation [[1; 2; 3]; [4; 5; 6]] 2 3).
  - split; [reflexivity | repeat constructor].
  - lia.
  - lia.
Defined.

(** C3.  On a rectangular grid with at least one row and one column,
    [counterclockwise_traversal] returns the cells in the order of the
    specification's ring peeling ([spec_traversal]: up the column
    [colStart], along the row [rowEnd], down the column [colEnd] if
    [colStart <= colEnd], back along the row [rowStart] if
    [rowStart <= rowEnd], repeated while the bounds have not crossed), and
    that order begins with the whole first column, top to bottom. *)
Theorem traversal_follows_spec_order (g : grid) (rows cols : Z) :
  rectangular g rows cols -> 0 < rows -> 0 < cols ->
  counterclockwise_traversal g = Ok (spec_traversal g)
  /\ exists rest, spec_traversal g = first_column g ++ rest.
Proof.
  intros Hrect Hrows Hcols.
  destruct (traversal_run_rectangular g rows cols Hrect Hrows)
    as (st & Hrun & _ & Hresult).
  assert (Hlen : len g = rows) by (destruct Hrect; assumption).
  assert (Hhd : len (hd [] g) = cols).
  { destruct Hrect as [_ Hall]. destruct g as [|row0 g'].
    - unfold len in Hlen. simpl in Hlen. lia.
    - inversion Hall; assumption. }
  assert (Hspec : spec_traversal g
                  = map (cell g) (spec_rings (length g) 0 (rows - 1) 0 (cols - 1))).
  { unfold spec_traversal, spec_order. rewrite Hhd, Hlen.
    replace (Z.to_nat rows) with (length g) by (unfold len in Hlen; lia).
    reflexivity. }
  split.
  - rewrite Hspec, <- rings_spec_rings, <- Hresult.
    apply counterclockwise_traversal_run, Hrun.
  - rewrite Hspec.
    destruct (length g) as [|n] eqn:En; [unfold len in Hlen; lia|].
    cbn [spec_rings].
    destruct (Z.leb_spec 0 (rows - 1)); [|lia].
    destruct (Z.leb_spec 0 (cols - 1)); [|lia].
    cbn [andb]. rewrite map_app. eexists. f_equal.
    rewrite map_map. unfold cell, first_column. cbn [fst snd].
    rewrite <- py_range_from_to.
    replace (rows - 1 + 1) with (len g) by lia.
    transitivity (map (fun row => hd 0 row)
                    (map (fun r => nth (Z.to_nat r) g []) (py_range 0 (len g))));
      [|rewrite map_nth_py_range; reflexivity].
    rewrite map_map. apply map_ext. intro r. apply nth_0_hd.
Qed.

Lemma traversal_follows_spec_order_witness :
  counterclockwise_traversal [[1; 2; 3]; [4; 5; 6]; [7; 8; 9]]
  = Ok (spec_traversal [[1; 2; 3]; [4; 5; 6]; [7; 8; 9]])
  /\ exists rest,
       spec_traversal [[1; 2; 3]; [4; 5; 6]; [7; 8; 9]]
       = first_column [[1; 2; 3]; [4; 5; 6]; [7; 8; 9]] ++ rest.
Proof.
  apply (traversal_follows_spec_order [[1; 2; 3]; [4; 5; 6]; [7; 8; 9]] 3 3).
  - split; [reflexivity | repeat constructor].
  - lia.
  - lia.
Defined.

(** C4.  On every rectangular grid the traversal ends and reads only cells
    of the grid: [traversal_run] returns a state, neither raising nor
    running out of fuel, [counterclockwise_traversal] returns that state's
    [result], and every pair [(row, col)] read along the way has
    [0 <= row < rows] and [0 <= col < cols]. *)
Theorem traversal_reads_inside (g : grid) (rows cols : Z) :
  rectangular g rows cols ->
  exists st,
    traversal_run g = Ok st
    /\ counterclockwise_traversal g = Ok (result st)
    /\ Forall (fun rc => 0 <= fst rc < rows /\ 0 <= snd rc < cols) (reads st).
Proof.
  intro Hrect.
  destruct g as [|row0 g'] eqn:Eg.
  - eexists. split; [reflexivity|]. split; [reflexivity|]. constructor.
  - rewrite <- Eg in *.
    assert (Hrows : 0 < rows).
    { destruct Hrect as [<- _]. rewrite Eg. unfold len. simpl length. lia. }
    destruct (traversal_run_rectangular g rows cols Hrect Hrows)
      as (st & Hrun & Hreads & _).
    exists st. split; [exact Hrun|]. split.
    + apply counterclockwise_traversal_run, Hrun.
    + rewrite Hreads. apply Forall_forall. intros rc Hin.
      apply (Permutation_in rc (rings_cover_rect (length g) 0 (rows - 1) 0 (cols - 1)
               ltac:(destruct Hrect as [Hlen _]; unfold len in Hlen; lia))) in Hin.
      apply in_rect in Hin. lia.
Qed.

Lemma traversal_reads_inside_witness :
  exists st,
    traversal_run [[1; 2]; [3; 4]; [5; 6]] = Ok st
    /\ counterclockwise_traversal [[1; 2]; [3; 4]; [5; 6]] = Ok (result st)
    /\ Forall (fun rc => 0 <= fst rc < 3 /\ 0 <= snd rc < 2) (reads st).
Proof.
  apply (traversal_reads_inside [[1; 2]; [3; 4]; [5; 6]] 3 2).
  split; [reflexivity | repeat constructor].
Defined.

(** C8.  On the empty grid [counterclockwise_traversal] returns the empty
    list at once: nothing is raised and no cell is read. *)
Theorem traversal_of_empty_grid :
  counterclockwise_traversal [] = Ok []
  /\ exists st, traversal_run [] = Ok st /\ reads st = [] /\ result st = [].
Proof.
  split; [reflexivity|]. eexists. repeat split.
Qed.

(** ** Stripping *)

Lemma lstrip_clean_start (s : str) : clean_start (lstrip s).
Proof.
  induction s as [|c s IH]; simpl.
  - exact I.
  - destruct (is_space c) eqn:E; [exact IH | exact E].
Qed.

Lemma lstrip_of_clean_start (s : str) : clean_start s -> lstrip s = s.
Proof.
  destruct s as [|c s]; simpl.
  - reflexivity.
  - intros ->. reflexivity.
Qed.

Lemma lstrip_app_clean (s : str) (c : ascii) (t : str) :
  is_space c = false -> lstrip (s ++ c :: t) = lstrip s ++ c :: t.
Proof.
  intro Hc. induction s as [|a s IH]; simpl.
  - rewrite Hc. reflexivity.
  - destruct (is_space a); [exact IH | reflexivity].
Qed.

Lemma rstrip_clean_start (s : str) : clean_start s -> clean_start (rstrip s).
Proof.
  unfold rstrip. destruct s as [|c s]; simpl.
  - intros _. exact I.
  - intro Hc. rewrite lstrip_app_clean by exact Hc.
    rewrite rev_app_distr. simpl. exact Hc.
Qed.

Lemma rstrip_idempotent (s : str) : rstrip (rstrip s) = rstrip s.
Proof.
  unfold rstrip. rewrite rev_involutive.
  rewrite (lstrip_of_clean_start (lstrip (rev s))) by apply lstrip_clean_start.
  reflexivity.
Qed.

(** Stripping twice is stripping once. *)
Lemma strip_idempotent (s : str) : strip (strip s) = strip s.
Proof.
  unfold strip.
  rewrite (lstrip_of_clean_start (rstrip (lstrip s)))
    by apply rstrip_clean_start, lstrip_clean_start.
  apply rstrip_idempotent.
Qed.

(** ** The two parsing steps *)

(** C9.  On every text the parsing step of [start_matrix_data] and the
    parsing step of [get_matrix] give the same outcome: the same grid, or
    the same exception of [int]. *)
Theorem parsing_steps_agree (text : str) :
  start_matrix_parse text = get_matrix_parse text.
Proof.
  unfold start_matrix_parse, get_matrix_parse.
  rewrite strip_idempotent. reflexivity.
Qed.

(** C2.  The four lines of the reference document parse, in either parsing
    step, to the grid [[10,20,30,40],[50,60,70,80],[90,100,110,120],
    [130,140,150,160]], and [counterclockwise_traversal] of that grid is
    [10,50,90,130,140,150,160,120,80,40,30,20,60,100,110,70]. *)
Theorem reference_scenario :
  start_matrix_parse reference_body = Ok reference_grid
  /\ get_matrix_parse reference_body = Ok reference_grid
  /\ counterclockwise_traversal reference_grid = Ok traversal.
Proof. repeat split; vm_compute; reflexivity. Qed.

(** ** Lines without the bracketing pipes *)

Lemma slice_short {A : Type} (l : list A) : (length l < 3)%nat -> slice_1_m1 l = [].
Proof.
  destruct l as [|a [|b [|c l]]]; simpl; intro H; try reflexivity. lia.
Qed.

Lemma slice_bookends {A : Type} (first last : A) (middle : list A) :
  slice_1_m1 (first :: middle ++ [last]) = middle.
Proof. unfold slice_1_m1. cbn [tl]. apply removelast_last. Qed.

Lemma rows_matrix_skips_empty (before after : list (list str)) :
  rows_matrix (before ++ [] :: after) = rows_matrix (before ++ after).
Proof.
  unfold rows_matrix. rewrite !filter_app. reflexivity.
Qed.

(** C10.  The first and the last field of a retained line are dropped
    whatever they hold: ['1|2|3'] parses to the single row [[2]]; and a
    line that splits into fewer than three fields gives no fields, so it
    adds no row and raises nothing, as ['abc'] shows, which parses to the
    empty grid. *)
Theorem bookends_dropped_unconditionally :
  get_matrix_parse (py "1|2|3") = Ok [[2]]
  /\ start_matrix_parse (py "1|2|3") = Ok [[2]]
  /\ get_matrix_parse (py "abc") = Ok []
  /\ start_matrix_parse (py "abc") = Ok []
  /\ (forall line first middle last,
        py_split pipe (strip line) = first :: middle ++ [last] ->
        line_fields line = middle)
  /\ (forall line before after,
        (length (py_split pipe (strip line)) < 3)%nat ->
        line_fields line = []
        /\ rows_matrix (before ++ line_fields line :: after)
           = rows_matrix (before ++ after)).
Proof.
  repeat split; try (vm_compute; reflexivity).
  - intros line first middle last H. unfold line_fields. rewrite H.
    apply slice_bookends.
  - unfold line_fields. apply slice_short. assumption.
  - unfold line_fields. rewrite slice_short by assumption.
    apply rows_matrix_skips_empty.
Qed.

Lemma bookends_dropped_unconditionally_witness :
  line_fields (py "1|2|3") = [py "2"]
  /\ line_fields (py "abc") = []
  /\ rows_matrix ([[py "7"]] ++ line_fields (py "abc") :: [[py "8"]])
     = rows_matrix ([[py "7"]] ++ [[py "8"]]).
Proof.
  destruct bookends_dropped_unconditionally as (_ & _ & _ & _ & Hdrop & Hshort).
  split; [|split].
  - apply (Hdrop (py "1|2|3") (py "1") [py "2"] (py "3")). reflexivity.
  - apply (Hshort (py "abc") [] []). vm_compute. lia.
  - apply (Hshort (py "abc") [[py "7"]] [[py "8"]]). vm_compute. lia.
Defined.

(** ** Messages *)

Lemma contains_refl (a : str) : contains a a.
Proof. exists [], []. rewrite app_nil_r. reflexivity. Qed.

Lemma contains_here (a post : str) : contains (a ++ post) a.
Proof. exists [], post. reflexivity. Qed.

Lemma contains_skip (pre b a : str) : contains b a -> contains (pre ++ b) a.
Proof.
  intros (p & q & ->). exists (pre ++ p), q. rewrite <- app_assoc. reflexivity.
Qed.

Ltac find_inside :=
  repeat first [apply contains_refl | apply contains_here | apply contains_skip].

(** Every exception is caught by some clause, whose message names the URL
    and either carries the text of the exception or, for a plain
    [asyncio.TimeoutError], says that the connection timed out. *)
Lemma first_clause_total (url : str) (e : exn) :
  exists msg,
    first_clause (except_clauses url) e = Some msg
    /\ contains msg url
    /\ (exn_cls e <> AsyncioTimeoutError -> contains msg (exn_text e))
    /\ (exn_cls e = AsyncioTimeoutError -> contains msg (py "Connection timeout")).
Proof.
  destruct e as [cls text].
  destruct cls; eexists; (split; [reflexivity|]); cbn [exn_cls exn_text];
    (split; [solve [find_inside]|]);
    (split; [intro; try congruence; solve [find_inside]|]);
    intro; try discriminate.
  exists [], (py " while fetching matrix from " ++ url). reflexivity.
Qed.

(** An exception that is a [ValueError] and nothing more goes to the last
    clause. *)
Lemma first_clause_value_error (url text : str) :
  first_clause (except_clauses url) (value_error text) = Some (generic_text url text).
Proof. reflexivity. Qed.

Lemma try_block_world (net : network) (url : str) (w : world) :
  requests (snd (try_block net url w)) = requests w ++ [url]
  /\ log (snd (try_block net url w)) = log w.
Proof.
  unfold try_block.
  destruct (net url) as [e|r]; [split; reflexivity|].
  destruct (status r >=? 500); [split; reflexivity|].
  destruct (negb (status r =? 200)); [split; reflexivity|].
  destruct (body r); split; reflexivity.
Qed.

(** The clauses for [ServerTimeoutError] and [ServerDisconnectedError] come
    after the clause for their ancestor [ClientConnectionError], which
    catches both first. *)
Example server_errors_caught_as_connection_errors (url text : str) :
  first_clause (except_clauses url) (mk_exn ServerTimeoutError text)
  = first_clause (except_clauses url) (mk_exn ClientConnectionError text)
  /\ first_clause (except_clauses url) (mk_exn ServerDisconnectedError text)
     = first_clause (except_clauses url) (mk_exn ClientConnectionError text).
Proof. split; reflexivity. Qed.

(** ** Parsing never runs out of fuel, and fails only through int *)

Lemma map_outcome_not_out_of_fuel {X Y : Type} (f : X -> outcome Y) (xs : list X) :
  (forall x, f x <> OutOfFuel) -> map_outcome f xs <> OutOfFuel.
Proof.
  intro Hf. induction xs as [|x xs IH]; cbn [map_outcome].
  - discriminate.
  - specialize (Hf x). destruct (f x); cbn [bind];
      [|discriminate|contradiction].
    destruct (map_outcome f xs); cbn [bind];
      [discriminate|discriminate|contradiction].
Qed.

Lemma py_int_not_out_of_fuel (s : str) : py_int s <> OutOfFuel.
Proof.
  unfold py_int. destruct (exceeds_digit_limit s); [discriminate|].
  destruct (parse_int s); discriminate.
Qed.

Lemma rows_matrix_not_out_of_fuel (rows : list (list str)) :
  rows_matrix rows <> OutOfFuel.
Proof.
  apply map_outcome_not_out_of_fuel. intro row.
  apply map_outcome_not_out_of_fuel, py_int_not_out_of_fuel.
Qed.

(** [map_outcome] raises what its first failing element raises. *)
Lemma map_outcome_raises {X Y : Type} (f : X -> outcome Y) (xs : list X) (x : X) :
  (forall x, f x <> OutOfFuel) ->
  In x xs -> (exists e, f x = Raise e) ->
  exists x' e', In x' xs /\ f x' = Raise e' /\ map_outcome f xs = Raise e'.
Proof.
  intros Hf Hin [e He]. induction xs as [|x0 xs IH]; [contradiction|].
  cbn [map_outcome]. pose proof (Hf x0) as H0.
  destruct (f x0) as [y|e0|] eqn:E0; [| |contradiction].
  - destruct Hin as [->|Hin]; [congruence|].
    destruct (IH Hin) as (x' & e' & Hin' & Hx' & Hmap).
    exists x', e'. cbn [bind]. rewrite Hmap. auto using in_cons.
  - exists x0, e0. auto using in_eq.
Qed.

Lemma map_outcome_raise_inv {X Y : Type} (f : X -> outcome Y) (xs : list X) (e : exn) :
  map_outcome f xs = Raise e -> exists x, In x xs /\ f x = Raise e.
Proof.
  induction xs as [|x xs IH]; cbn [map_outcome]; [discriminate|].
  destruct (f x) as [y|e0|] eqn:E; cbn [bind].
  - destruct (map_outcome f xs) as [ys|e1|]; cbn [bind]; try discriminate.
    intros [= <-]. destruct IH as (x' & Hin & Hx'); [reflexivity|].
    eauto using in_cons.
  - intros [= <-]. eauto using in_eq.
  - discriminate.
Qed.

(** What [int] returns is what the literal stands for. *)
Lemma py_int_ok_inv (s : str) (n : Z) : py_int s = Ok n -> parse_int s = Some n.
Proof.
  unfold py_int. destruct (exceeds_digit_limit s); [discriminate|].
  destruct (parse_int s); [congruence | discriminate].
Qed.

(** What [int] raises is a [ValueError]: that of a string that is no
    literal, or that of a literal with too many digits. *)
Lemma py_int_raise_inv (s : str) (e : exn) :
  py_int s = Raise e ->
  (e = int_error s /\ parse_int s = None)
  \/ exists digits, e = digit_limit_error digits /\ max_str_digits < digits.
Proof.
  unfold py_int, exceeds_digit_limit.
  destruct (parse_digits 0 false (digit_run (unsigned_part s))).
  - destruct (Z.ltb_spec max_str_digits (count_digits (digit_run (unsigned_part s)))).
    + intros [= <-]. right. eauto.
    + destruct (parse_int s); [discriminate|]. intros [= <-]. auto.
  - destruct (parse_int s); [discriminate|]. intros [= <-]. auto.
Qed.

Lemma py_int_raises_value_error (s : str) (e : exn) :
  py_int s = Raise e -> exists text, e = value_error text.
Proof.
  intro H. apply py_int_raise_inv in H as [[-> _]|(digits & -> & _)];
    eexists; reflexivity.
Qed.

(** [int] refuses every string that is no literal. *)
Lemma py_int_of_non_literal (s : str) :
  parse_int s = None -> exists e, py_int s = Raise e.
Proof.
  intro H. unfold py_int. destruct (exceeds_digit_limit s); [eauto|].
  rewrite H. eauto.
Qed.

(** A field that [int] refuses makes the parsing step raise what [int]
    raises at such a field. *)
Lemma rows_matrix_raises (rows : list (list str)) (row : list str) (field : str) :
  In row rows -> In field row -> (exists e0, py_int field = Raise e0) ->
  exists row' bad e,
    In row' rows /\ In bad row' /\ py_int bad = Raise e
    /\ rows_matrix rows = Raise e.
Proof.
  intros Hrow Hfield Hbad. unfold rows_matrix.
  destruct (map_outcome_raises py_int row field py_int_not_out_of_fuel Hfield Hbad)
    as (bad0 & e0 & _ & _ & Hmap).
  destruct (map_outcome_raises (fun row => map_outcome py_int row)
              (filter truthy rows) row) as (row' & e & Hin' & Hrow' & Hall).
  - intro r. apply map_outcome_not_out_of_fuel, py_int_not_out_of_fuel.
  - apply filter_In. split; [exact Hrow|]. destruct row; [contradiction|reflexivity].
  - exists e0. exact Hmap.
  - apply map_outcome_raise_inv in Hrow' as (bad & Hbad' & Hraise).
    apply filter_In in Hin' as [Hin' _]. exists row', bad, e. auto.
Qed.

(** ** get_matrix *)

Lemma try_block_not_out_of_fuel (net : network) (url : str) (w : world) :
  fst (try_block net url w) <> OutOfFuel.
Proof.
  unfold try_block.
  destruct (net url) as [e|r]; [discriminate|].
  destruct (status r >=? 500); [discriminate|].
  destruct (negb (status r =? 200)); [discriminate|].
  destruct (body r) as [e|text]; [discriminate|]. cbn [fst].
  unfold get_matrix_parse.
  pose proof (rows_matrix_not_out_of_fuel (text_rows (strip text))) as Hparse.
  destruct (rows_matrix _) as [matrix| |]; cbn [bind];
    [|discriminate|contradiction].
  apply traversal_not_out_of_fuel.
Qed.

(** [get_matrix] returns a list or raises a [ValueError]; nothing else. *)
Lemma get_matrix_total (net : network) (url : str) (w : world) :
  (exists out, fst (get_matrix net url w) = Ok out)
  \/ (exists msg, fst (get_matrix net url w) = Raise (value_error msg)).
Proof.
  unfold get_matrix.
  pose proof (try_block_not_out_of_fuel net url w) as Hfuel.
  destruct (try_block net url w) as [[out|e|] w']; cbn [fst] in *.
  - left. eauto.
  - right. destruct (first_clause_total url e) as (msg & -> & _).
    exists msg. reflexivity.
  - contradiction.
Qed.

(** C5.  When the response has a status of 500 or more, [get_matrix]
    raises a [ValueError] whose message holds the words [Server error] and
    the status code; when the status is below 500 and is not 200, it raises
    a [ValueError] whose message holds [Failed to fetch matrix] and the
    status code.  Both messages reach the caller inside the message of the
    last [except] clause, which is also logged.  In both cases the body is
    not read, whatever it is, and no list is returned. *)
Theorem bad_status_raises (net : network) (url : str) (w : world) (r : response) :
  net url = inr r ->
  (500 <= status r ->
     get_matrix net url w
     = (Raise (value_error (generic_text url (server_error_text url (status r)))),
        logger_error (generic_text url (server_error_text url (status r)))
          (send_request url w))
     /\ contains (generic_text url (server_error_text url (status r)))
          (py "Server error")
     /\ contains (generic_text url (server_error_text url (status r)))
          (py "Status code: " ++ py_str_int (status r)))
  /\ (status r < 500 -> status r <> 200 ->
     get_matrix net url w
     = (Raise (value_error (generic_text url (bad_status_text url (status r)))),
        logger_error (generic_text url (bad_status_text url (status r)))
          (send_request url w))
     /\ contains (generic_text url (bad_status_text url (status r)))
          (py "Failed to fetch matrix")
     /\ contains (generic_text url (bad_status_text url (status r)))
          (py "Status code: " ++ py_str_int (status r)))
  /\ (status r <> 200 ->
      body_reads (snd (get_matrix net url w)) = body_reads w).
Proof.
  intro Hnet. unfold get_matrix, try_block. rewrite Hnet, Z.geb_leb.
  split; [|split].
  - intro Hst. destruct (Z.leb_spec 500 (status r)); [|lia].
    rewrite first_clause_value_error. split; [reflexivity|]. split.
    + exists (py "An error occurred while fetching matrix from " ++ url
              ++ py ". Error: "),
             (py " occurred while fetching matrix from " ++ url
              ++ py ". Status code: " ++ py_str_int (status r)).
      unfold generic_text, server_error_text. rewrite <- !app_assoc. reflexivity.
    + exists (py "An error occurred while fetching matrix from " ++ url
              ++ py ". Error: "
              ++ py "Server error occurred while fetching matrix from " ++ url
              ++ py ". "), [].
      unfold generic_text, server_error_text.
      rewrite <- !app_assoc, app_nil_r. reflexivity.
  - intros Hst Hne. destruct (Z.leb_spec 500 (status r)); [lia|].
    destruct (Z.eqb_spec (status r) 200); [contradiction|]. cbn [negb].
    rewrite first_clause_value_error. split; [reflexivity|]. split.
    + exists (py "An error occurred while fetching matrix from " ++ url
              ++ py ". Error: "),
             (py " from " ++ url ++ py ". Status code: " ++ py_str_int (status r)).
      unfold generic_text, bad_status_text. rewrite <- !app_assoc. reflexivity.
    + exists (py "An error occurred while fetching matrix from " ++ url
              ++ py ". Error: " ++ py "Failed to fetch matrix from " ++ url
              ++ py ". "), [].
      unfold generic_text, bad_status_text.
      rewrite <- !app_assoc, app_nil_r. reflexivity.
  - intro Hne. destruct (500 <=? status r).
    + rewrite first_clause_value_error. reflexivity.
    + destruct (Z.eqb_spec (status r) 200); [contradiction|]. cbn [negb].
      rewrite first_clause_value_error. reflexivity.
Qed.

Lemma bad_status_raises_witness :
  fst (get_matrix (answer 503 (py "|1|")) example_url fresh_world)
  = Raise (value_error (generic_text example_url (server_error_text example_url 503)))
  /\ fst (get_matrix (answer 404 (py "|1|")) example_url fresh_world)
     = Raise (value_error (generic_text example_url (bad_status_text example_url 404))).
Proof.
  split.
  - destruct (bad_status_raises (answer 503 (py "|1|")) example_url fresh_world
                _ eq_refl) as (Hserver & _ & _).
    destruct Hserver as (-> & _); [cbn; lia | reflexivity].
  - destruct (bad_status_raises (answer 404 (py "|1|")) example_url fresh_world
                _ eq_refl) as (_ & Hother & _).
    destruct Hother as (-> & _); [cbn; lia | cbn; lia | reflexivity].
Defined.

(** * Further properties *)

(** ** The traversal on any grid *)

Lemma bind_assoc {A B C : Type} (m : outcome A) (f : A -> outcome B)
  (h : B -> outcome C) :
  bind (bind m f) h = bind m (fun a => bind (f a) h).
Proof. destruct m; reflexivity. Qed.

Lemma for_each_app {S X : Type} (body : S -> X -> outcome S) (xs ys : list X) (s : S) :
  for_each body (xs ++ ys) s = bind (for_each body xs s) (for_each body ys).
Proof.
  revert s. induction xs as [|x xs IH]; intro s; cbn [for_each app bind].
  - reflexivity.
  - destruct (body s x); cbn [bind]; auto.
Qed.

Lemma for_each_map {S X Y : Type} (body : S -> Y -> outcome S) (f : X -> Y)
  (xs : list X) (s : S) :
  for_each body (map f xs) s = for_each (fun a x => body a (f x)) xs s.
Proof.
  revert s. induction xs as [|x xs IH]; intro s; cbn [for_each map].
  - reflexivity.
  - destruct (body s (f x)); cbn [bind]; auto.
Qed.

Lemma read_cells_app (g : grid) (xs ys : list (Z * Z)) acc :
  read_cells g (xs ++ ys) acc = bind (read_cells g xs acc) (read_cells g ys).
Proof. apply for_each_app. Qed.

Lemma walk_column_read_cells (g : grid) (c : Z) (xs : list Z) acc :
  walk_column g c xs acc = read_cells g (map (fun r => (r, c)) xs) acc.
Proof. unfold read_cells. rewrite for_each_map. reflexivity. Qed.

Lemma walk_row_read_cells (g : grid) (r : Z) (xs : list Z) acc :
  walk_row g r xs acc = read_cells g (map (fun c => (r, c)) xs) acc.
Proof. unfold read_cells. rewrite for_each_map. reflexivity. Qed.

Lemma read_cells_nil (g : grid) acc : read_cells g [] acc = Ok acc.
Proof. reflexivity. Qed.

(** One pass, on any grid: read the cells of [ring] in order, then move the
    bounds. *)
Lemma loop_body_read_cells (g : grid) (st : state) :
  loop_body g st
  = bind (read_cells g
            (ring (row_start st) (row_end st) (col_start st) (col_end st))
            (result st, reads st))
      (fun a =>
         Ok (mk_state
               (if row_start st <=? row_end st - 1
                then row_start st + 1 else row_start st)
               (row_end st - 1) (col_start st + 1)
               (if col_start st + 1 <=? col_end st
                then col_end st - 1 else col_end st)
               (fst a) (snd a))).
Proof.
  unfold loop_body, ring.
  rewrite read_cells_app, ?bind_assoc, walk_column_read_cells.
  destruct (read_cells g (map _ (py_range (row_start st) _)) _) as [a1| |];
    cbn [bind]; try reflexivity.
  rewrite read_cells_app, ?bind_assoc, walk_row_read_cells.
  destruct (read_cells g (map _ (py_range (col_start st + 1) _)) a1) as [a2| |];
    cbn [bind]; try reflexivity.
  rewrite read_cells_app, ?bind_assoc.
  destruct (col_start st + 1 <=? col_end st);
    rewrite ?walk_column_read_cells, ?read_cells_nil; cbn [bind fst snd];
    repeat match goal with
    | |- context [read_cells g (map ?f ?xs) ?a] =>
        destruct (read_cells g (map f xs) a); cbn [bind fst snd]
    end; try reflexivity;
    destruct (row_start st <=? row_end st - 1);
    rewrite ?walk_row_read_cells, ?read_cells_nil; cbn [bind fst snd];
    repeat match goal with
    | |- context [read_cells g (map ?f ?xs) ?a] =>
        destruct (read_cells g (map f xs) a); cbn [bind fst snd]
    end; reflexivity.
Qed.

(** The whole loop, on any grid: it returns what reading the cells of
    [rings] in order returns, and raises what that raises. *)
Lemma while_loop_read_cells (g : grid) (fuel : nat) (st : state) :
  row_end st - row_start st + 1 <= Z.of_nat fuel ->
  match read_cells g
          (rings fuel (row_start st) (row_end st) (col_start st) (col_end st))
          (result st, reads st) with
  | Ok a => exists st', while_loop fuel g st = Ok st'
                        /\ result st' = fst a /\ reads st' = snd a
  | Raise e => while_loop fuel g st = Raise e
  | OutOfFuel => False
  end.
Proof.
  revert st. induction fuel as [|fuel IH]; intros st Hfuel; cbn [while_loop rings].
  - destruct (Z.leb_spec (row_start st) (row_end st)); [lia|].
    cbn [andb]. rewrite read_cells_nil. exists st. auto.
  - destruct ((row_start st <=? row_end st) && (col_start st <=? col_end st)) eqn:G.
    + rewrite read_cells_app, loop_body_read_cells.
      destruct (read_cells g (ring _ _ _ _) _) as [a| |] eqn:E; cbn [bind].
      * match goal with
        | |- context [while_loop fuel g ?s] => specialize (IH s)
        end.
        cbn [row_start row_end col_start col_end result reads fst snd] in IH.
        destruct a as [res rds]. cbn [fst snd] in *. apply IH.
        destruct (Z.leb_spec (row_start st) (row_end st - 1)); lia.
      * reflexivity.
      * exfalso. revert E. apply for_each_not_out_of_fuel.
        intros. apply append_cell_not_out_of_fuel.
    + rewrite read_cells_nil. exists st. auto.
Qed.


Lemma py_index_outside {A : Type} (l : list A) (i : Z) :
  len l <= i -> py_index l i = Raise index_error.
Proof.
  intro H. unfold py_index. unfold len in *.
  destruct (Z.ltb_spec i 0); [lia|].
  destruct (Z.ltb_spec i (Z.of_nat (length l))); [lia|].
  rewrite andb_false_r. reflexivity.
Qed.

Lemma append_cell_readable (g : grid) acc (r c : Z) :
  readable g (r, c) ->
  append_cell g acc r c = Ok (fst acc ++ [cell g (r, c)], snd acc ++ [(r, c)]).
Proof.
  intros [Hr Hc]. cbn [fst snd] in Hr, Hc. unfold append_cell.
  rewrite (py_index_inside g r []) by exact Hr. cbn [bind].
  rewrite (py_index_inside _ c 0) by exact Hc. reflexivity.
Qed.

Lemma append_cell_past_row_end (g : grid) acc (r c : Z) :
  0 <= r < len g -> len (nth (Z.to_nat r) g []) <= c ->
  append_cell g acc r c = Raise index_error.
Proof.
  intros Hr Hc. unfold append_cell.
  rewrite (py_index_inside g r []) by exact Hr. cbn [bind].
  rewrite py_index_outside by exact Hc. reflexivity.
Qed.

Lemma read_cells_readable (g : grid) (coords : list (Z * Z)) acc :
  Forall (readable g) coords ->
  read_cells g coords acc = Ok (fst acc ++ map (cell g) coords, snd acc ++ coords).
Proof.
  intro H. revert acc. unfold read_cells.
  induction H as [|[r c] coords Hrc _ IH]; intro acc; cbn [for_each map].
  - rewrite !app_nil_r. destruct acc; reflexivity.
  - cbn [fst snd]. rewrite append_cell_readable by exact Hrc. cbn [bind].
    rewrite IH. cbn [fst snd]. rewrite <- !app_assoc. reflexivity.
Qed.

Lemma read_cells_past_row_end (g : grid) (coords : list (Z * Z)) acc :
  Forall (fun rc => 0 <= fst rc < len g /\ 0 <= snd rc) coords ->
  Exists (fun rc => len (nth (Z.to_nat (fst rc)) g []) <= snd rc) coords ->
  read_cells g coords acc = Raise index_error.
Proof.
  intros Hall Hex. revert acc. unfold read_cells.
  induction Hall as [|[r c] coords [Hr Hc] _ IH]; intro acc.
  - inversion Hex.
  - cbn [for_each fst snd] in *.
    destruct (Z_lt_le_dec c (len (nth (Z.to_nat r) g []))) as [Hin|Hout].
    + rewrite append_cell_readable by (split; cbn [fst snd]; lia). cbn [bind].
      apply IH. inversion Hex as [? ? Hbad|]; subst; [cbn [fst snd] in Hbad; lia|].
      assumption.
    + rewrite append_cell_past_row_end by assumption. reflexivity.
Qed.

Lemma rings_in_rect (fuel : nat) (rs re cs ce : Z) (rc : Z * Z) :
  re - rs + 1 <= Z.of_nat fuel ->
  In rc (rings fuel rs re cs ce) <-> rs <= fst rc <= re /\ cs <= snd rc <= ce.
Proof.
  intro Hfuel. rewrite <- in_rect. split; apply Permutation_in.
  - apply rings_cover_rect, Hfuel.
  - symmetry. apply rings_cover_rect, Hfuel.
Qed.

(** What [counterclockwise_traversal] returns on a grid with a first row,
    in terms of reading the cells of [rings]. *)
Lemma traversal_read_cells (row0 : list Z) (rest : grid) :
  let g := row0 :: rest in
  match read_cells g (rings (length g) 0 (len g - 1) 0 (len row0 - 1)) ([], []) with
  | Ok a => counterclockwise_traversal g = Ok (fst a)
  | Raise e => counterclockwise_traversal g = Raise e
  | OutOfFuel => False
  end.
Proof.
  intro g.
  pose proof (while_loop_read_cells g (length g)
                (mk_state 0 (len g - 1) 0 (len row0 - 1) [] [])) as H.
  cbn [row_start row_end col_start col_end result reads] in H.
  specialize (H ltac:(unfold len; lia)).
  assert (Hrun : traversal_run g
                 = while_loop (length g) g
                     (mk_state 0 (len g - 1) 0 (len row0 - 1) [] [])).
  { unfold traversal_run, g.
    rewrite (py_index_inside _ 0 []) by (unfold len; simpl length; lia).
    reflexivity. }
  destruct (read_cells g _ _) as [a|e|].
  - destruct H as (st & Hloop & Hres & _).
    rewrite <- Hres. apply counterclockwise_traversal_run. congruence.
  - unfold counterclockwise_traversal, g. fold g. rewrite Hrun, H. reflexivity.
  - exact H.
Qed.

Lemma cut_to_first_row_rectangular (g : grid) :
  Forall (fun row => (length (hd [] g) <= length row)%nat) g ->
  rectangular (cut_to_first_row g) (len g) (len (hd [] g)).
Proof.
  intro H. unfold rectangular, cut_to_first_row, len. split.
  - rewrite length_map. reflexivity.
  - apply Forall_map. revert H. apply Forall_impl. intros row Hrow.
    rewrite firstn_length_le by exact Hrow. reflexivity.
Qed.

Lemma cell_cut_to_first_row (g : grid) (rc : Z * Z) :
  0 <= fst rc < len g -> 0 <= snd rc < len (hd [] g) ->
  cell (cut_to_first_row g) rc = cell g rc.
Proof.
  intros Hr Hc. unfold cell, cut_to_first_row, len in *.
  rewrite (nth_indep _ [] (firstn (length (hd [] g)) []))
    by (rewrite length_map; lia).
  rewrite map_nth, nth_firstn.
  destruct (Nat.ltb_spec (Z.to_nat (snd rc)) (length (hd [] g))); [reflexivity|lia].
Qed.

(** X1.  When no row is shorter than the first one,
    [counterclockwise_traversal] returns what it returns on the grid with
    every row cut to the length of the first: the cells past that length
    are never read, and the result is a permutation of the cells that
    remain. *)
Theorem traversal_ignores_cells_past_first_row_length (g : grid) :
  Forall (fun row => (length (hd [] g) <= length row)%nat) g ->
  counterclockwise_traversal g = counterclockwise_traversal (cut_to_first_row g)
  /\ exists out,
       counterclockwise_traversal g = Ok out
       /\ Permutation out (concat (cut_to_first_row g)).
Proof.
  intro Hlong. destruct g as [|row0 rest] eqn:Eg.
  { split; [reflexivity|]. exists []. split; [reflexivity|constructor]. }
  rewrite <- Eg in *.
  pose proof (cut_to_first_row_rectangular g Hlong) as Hrect.
  assert (Hrows : 0 < len g) by (rewrite Eg; unfold len; simpl length; lia).
  destruct (traversal_run_rectangular _ _ _ Hrect Hrows) as (st & Hrun & _ & Hres).
  apply counterclockwise_traversal_run in Hrun.
  assert (Hlen : length (cut_to_first_row g) = length g)
    by (unfold cut_to_first_row; apply length_map).
  rewrite Hlen in Hres.
  assert (Hhd : hd [] g = row0) by (rewrite Eg; reflexivity).
  set (coords := rings (length g) 0 (len g - 1) 0 (len (hd [] g) - 1)) in *.
  assert (Hin : forall rc, In rc coords ->
                  0 <= fst rc < len g /\ 0 <= snd rc < len (hd [] g)).
  { intros rc H. apply rings_in_rect in H; [lia | unfold len; lia]. }
  assert (Hg : counterclockwise_traversal g = Ok (map (cell g) coords)).
  { pose proof (traversal_read_cells row0 rest) as H. cbv zeta in H.
    rewrite <- Eg, <- Hhd in H. fold coords in H.
    rewrite read_cells_readable in H; [exact H|].
    apply Forall_forall. intros rc Hrc. destruct (Hin rc Hrc) as [Hr Hc].
    split; [exact Hr|]. split; [lia|].
    rewrite Forall_forall in Hlong.
    assert (Hrow : In (nth (Z.to_nat (fst rc)) g []) g)
      by (apply nth_In; unfold len in Hr; lia).
    apply Hlong in Hrow. unfold len in *. lia. }
  assert (Heq : map (cell (cut_to_first_row g)) coords = map (cell g) coords).
  { apply map_ext_in. intros rc Hrc. destruct (Hin rc Hrc).
    apply cell_cut_to_first_row; assumption. }
  split.
  - rewrite Hg, Hrun, Hres, Heq. reflexivity.
  - exists (map (cell g) coords). split; [exact Hg|].
    rewrite <- Heq, <- (cells_of_rect _ _ _ Hrect).
    apply Permutation_map, rings_cover_rect. unfold len. lia.
Qed.

Lemma traversal_ignores_cells_past_first_row_length_witness :
  counterclockwise_traversal [[1; 2]; [4; 5; 6]]
  = counterclockwise_traversal (cut_to_first_row [[1; 2]; [4; 5; 6]])
  /\ exists out,
       counterclockwise_traversal [[1; 2]; [4; 5; 6]] = Ok out
       /\ Permutation out (concat (cut_to_first_row [[1; 2]; [4; 5; 6]])).
Proof.
  apply (traversal_ignores_cells_past_first_row_length [[1; 2]; [4; 5; 6]]).
  repeat constructor.
Defined.

(** With a row shorter than the first, some read of the loop falls past
    the end of a row. *)
Lemma read_cells_short_row (row0 : list Z) (rest : grid) acc :
  let g := row0 :: rest in
  Exists (fun row => (length row < length row0)%nat) g ->
  read_cells g (rings (length g) 0 (len g - 1) 0 (len row0 - 1)) acc
  = Raise index_error.
Proof.
  intros g Hshort. apply Exists_exists in Hshort as (row & Hrow & Hlt).
  apply read_cells_past_row_end.
  - apply Forall_forall. intros rc Hrc.
    apply rings_in_rect in Hrc; [lia | unfold len; lia].
  - destruct (In_nth g row [] Hrow) as (i & Hi & Hnth).
    apply Exists_exists. exists (Z.of_nat i, len row). split.
    + apply rings_in_rect; [unfold len; lia|]. cbn [fst snd]. unfold len. lia.
    + cbn [fst snd]. rewrite Nat2Z.id, Hnth. lia.
Qed.

(** X2.  When some row is shorter than the first one,
    [counterclockwise_traversal] raises [IndexError]. *)
Theorem traversal_raises_on_short_row (g : grid) :
  Exists (fun row => (length row < length (hd [] g))%nat) g ->
  counterclockwise_traversal g = Raise index_error.
Proof.
  intro Hshort. destruct g as [|row0 rest]; [inversion Hshort|].
  pose proof (traversal_read_cells row0 rest) as H. cbv zeta in H.
  rewrite read_cells_short_row in H by exact Hshort. exact H.
Qed.

Lemma traversal_raises_on_short_row_witness :
  counterclockwise_traversal [[1; 2; 3]; [4; 5]] = Raise index_error.
Proof.
  apply (traversal_raises_on_short_row [[1; 2; 3]; [4; 5]]).
  right. left. simpl. lia.
Defined.

(** ** Grids of one row or one column *)

Lemma rings_no_cols (fuel : nat) (rs re cs ce : Z) :
  ce < cs -> rings fuel rs re cs ce = [].
Proof.
  intro H. destruct fuel; cbn [rings]; [reflexivity|].
  destruct (Z.leb_spec cs ce); [lia|]. rewrite andb_false_r. reflexivity.
Qed.

Lemma rings_no_rows (fuel : nat) (rs re cs ce : Z) :
  re < rs -> rings fuel rs re cs ce = [].
Proof.
  intro H. destruct fuel; cbn [rings]; [reflexivity|].
  destruct (Z.leb_spec rs re); [lia|]. reflexivity.
Qed.

Lemma ring_one_row (r cs ce : Z) :
  cs <= ce -> ring r r cs ce = map (fun c => (r, c)) (py_range cs (ce + 1)).
Proof.
  intro H. unfold ring.
  rewrite (py_range_cons r (r + 1)), (py_range_nil (r + 1)) by lia.
  rewrite (py_range_down_nil (r - 1)) by lia.
  destruct (Z.leb_spec r (r - 1)); [lia|].
  rewrite (py_range_cons cs) by lia. cbn [map app].
  destruct (cs + 1 <=? ce); cbn [map app]; rewrite !app_nil_r; reflexivity.
Qed.

Lemma ring_one_column (rs re c : Z) :
  rs <= re -> ring rs re c c = map (fun r => (r, c)) (py_range rs (re + 1)).
Proof.
  intro H. unfold ring.
  rewrite (py_range_nil (c + 1)) by lia.
  destruct (Z.leb_spec (c + 1) c); [lia|].
  rewrite (py_range_down_nil c) by lia.
  destruct (rs <=? re - 1); cbn [map app]; rewrite !app_nil_r; reflexivity.
Qed.

(** X3.  The traversal of a grid of one row is that row, left to right. *)
Theorem traversal_of_one_row (row : list Z) :
  counterclockwise_traversal [row] = Ok row.
Proof.
  destruct row as [|x row'] eqn:Erow; [reflexivity|]. rewrite <- Erow.
  assert (Hrect : rectangular [row] 1 (len row)) by (split; [reflexivity|auto]).
  destruct (traversal_run_rectangular _ _ _ Hrect ltac:(lia)) as (st & Hrun & _ & Hres).
  apply counterclockwise_traversal_run in Hrun. rewrite Hrun, Hres. f_equal.
  assert (Hlen : 0 < len row) by (rewrite Erow; unfold len; simpl length; lia).
  cbn [length rings]. change (1 - 1) with 0.
  destruct (Z.leb_spec 0 (len row - 1)); [|lia].
  cbn [Z.leb Z.compare andb]. rewrite ring_one_row, app_nil_r by lia.
  replace (len row - 1 + 1) with (len row) by lia.
  rewrite map_map. apply (map_nth_py_range row 0).
Qed.

(** X4.  The traversal of a grid of one column is that column, top to
    bottom. *)
Theorem traversal_of_one_column (column : list Z) :
  counterclockwise_traversal (map (fun x => [x]) column) = Ok column.
Proof.
  destruct column as [|x column'] eqn:Ecol; [reflexivity|]. rewrite <- Ecol.
  set (g := map (fun x => [x]) column).
  assert (Hlen : len g = len column) by (unfold len, g; rewrite length_map; reflexivity).
  assert (Hpos : 0 < len column) by (rewrite Ecol; unfold len; simpl length; lia).
  assert (Hrect : rectangular g (len column) 1).
  { split; [exact Hlen|]. unfold g. apply Forall_map, Forall_forall. reflexivity. }
  destruct (traversal_run_rectangular _ _ _ Hrect Hpos) as (st & Hrun & _ & Hres).
  apply counterclockwise_traversal_run in Hrun. rewrite Hrun, Hres. f_equal.
  assert (Hn : length g <> 0%nat) by (unfold len in Hlen, Hpos; lia).
  destruct (length g) as [|n]; [contradiction|].
  cbn [rings]. change (1 - 1) with 0.
  destruct (Z.leb_spec 0 (len column - 1)); [|lia].
  cbn [Z.leb Z.compare andb]. change (0 + 1 <=? 0) with false. cbv iota.
  rewrite rings_no_cols, app_nil_r, ring_one_column by lia.
  replace (len column - 1 + 1) with (len g) by lia.
  rewrite map_map. unfold cell. cbn [fst snd].
  rewrite <- (map_map (fun r => nth (Z.to_nat r) g []) (fun row => nth 0 row 0)).
  rewrite map_nth_py_range. unfold g. rewrite map_map. apply map_id.
Qed.

(** ** Every cell is read once *)

Lemma NoDup_count_up (a : Z) (n : nat) : NoDup (count_up a n).
Proof.
  revert a. induction n as [|n IH]; intro a; cbn [count_up]; constructor.
  - rewrite in_count_up. lia.
  - apply IH.
Qed.

Lemma NoDup_py_range (a b : Z) : NoDup (py_range a b).
Proof. rewrite py_range_count_up. apply NoDup_count_up. Qed.

Lemma NoDup_rect (rs re cs ce : Z) : NoDup (rect rs re cs ce).
Proof.
  unfold rect. generalize (py_range cs (ce + 1)) (NoDup_py_range cs (ce + 1)).
  intros cols Hcols.
  generalize (py_range rs (re + 1)) (NoDup_py_range rs (re + 1)).
  intros rows Hrows. induction Hrows as [|r rows Hr _ IH]; cbn [flat_map].
  - constructor.
  - apply NoDup_app.
    + clear - Hcols. induction Hcols as [|c cols Hc _ IH]; cbn [map]; constructor.
      * rewrite in_map_iff. intros (c' & [= ->] & Hin). contradiction.
      * exact IH.
    + exact IH.
    + intros rc H1 H2. apply in_map_iff in H1 as (c & <- & _).
      apply in_flat_map in H2 as (r' & Hr' & H2).
      apply in_map_iff in H2 as (c' & [= -> _] & _). contradiction.
Qed.

(** X5.  On a rectangular grid the traversal reads every cell exactly once:
    the index pairs it reads hold no pair twice, and they are the pairs
    [(row, col)] with [0 <= row < rows] and [0 <= col < cols]. *)
Theorem traversal_reads_every_cell_once (g : grid) (rows cols : Z) :
  rectangular g rows cols ->
  exists st,
    traversal_run g = Ok st
    /\ NoDup (reads st)
    /\ (forall r c, In (r, c) (reads st) <-> 0 <= r < rows /\ 0 <= c < cols)
    /\ result st = map (cell g) (reads st).
Proof.
  intro Hrect. destruct g as [|row0 rest] eqn:Eg.
  - exists (mk_state 0 0 0 0 [] []). split; [reflexivity|].
    split; [constructor|]. split; [|reflexivity].
    destruct Hrect as [<- _]. unfold len. simpl. intros r c. lia.
  - rewrite <- Eg in *.
    assert (Hrows : 0 < rows).
    { destruct Hrect as [<- _]. rewrite Eg. unfold len. simpl length. lia. }
    destruct (traversal_run_rectangular g rows cols Hrect Hrows)
      as (st & Hrun & Hreads & Hres).
    assert (Hfuel : rows - 1 - 0 + 1 <= Z.of_nat (length g))
      by (destruct Hrect as [Hlen _]; unfold len in Hlen; lia).
    exists st. split; [exact Hrun|]. rewrite Hres, Hreads. split; [|split].
    + apply (Permutation_NoDup (l := rect 0 (rows - 1) 0 (cols - 1))).
      * symmetry. apply rings_cover_rect, Hfuel.
      * apply NoDup_rect.
    + intros r c. rewrite rings_in_rect by exact Hfuel. cbn [fst snd]. lia.
    + reflexivity.
Qed.

Lemma traversal_reads_every_cell_once_witness :
  exists st,
    traversal_run [[1; 2]; [3; 4]] = Ok st
    /\ NoDup (reads st)
    /\ (forall r c, In (r, c) (reads st) <-> 0 <= r < 2 /\ 0 <= c < 2)
    /\ result st = map (cell [[1; 2]; [3; 4]]) (reads st).
Proof.
  apply (traversal_reads_every_cell_once [[1; 2]; [3; 4]] 2 2).
  split; [reflexivity | repeat constructor].
Defined.

(** ** int(str(n)) *)

Lemma eval_uint_of_lu (d : Decimal.uint) (acc : N) :
  (eval_uint acc d
   = DecimalPos.Unsigned.of_lu (Decimal.rev d)
     + acc * 10 ^ DecimalPos.Unsigned.usize d)%N.
Proof.
  revert acc.
  induction d; intro acc; cbn [eval_uint DecimalPos.Unsigned.usize];
    [ simpl; lia | .. ];
    rewrite IHd; unfold Decimal.rev; cbn [Decimal.revapp];
    rewrite !DecimalPos.Unsigned.of_lu_revapp; cbn [DecimalPos.Unsigned.of_lu];
    rewrite N.pow_succ_r';
    generalize (10 ^ DecimalPos.Unsigned.usize d)%N (DecimalPos.Unsigned.of_lu (Decimal.rev d));
    intros; nia.
Qed.

Lemma eval_uint_to_uint (p : positive) : eval_uint 0 (Pos.to_uint p) = Npos p.
Proof.
  rewrite eval_uint_of_lu, N.mul_0_l, N.add_0_r.
  rewrite <- DecimalPos.Unsigned.of_uint_alt. apply DecimalPos.Unsigned.of_to.
Qed.

Lemma parse_digits_uint (d : Decimal.uint) (acc : N) (after_digit : bool) :
  d <> Decimal.Nil \/ after_digit = true ->
  parse_digits (Z.of_N acc) after_digit (uint_chars d)
  = Some (Z.of_N (eval_uint acc d)).
Proof.
  revert acc after_digit.
  induction d; intros acc after_digit H;
    [ destruct H as [H| ->]; [contradiction | reflexivity] | .. ];
    unfold uint_chars; cbn [NilEmpty.string_of_uint list_ascii_of_string];
    fold (uint_chars d); cbn [parse_digits eval_uint];
    match goal with
    | |- context [is_digit ?c] =>
        change (is_digit c) with true;
        let v := eval vm_compute in (digit_value c) in
        change (digit_value c) with v
    end;
    cbv iota; (etransitivity; [|apply IHd; right; reflexivity]); f_equal; lia.
Qed.

Lemma number_char_plain (c : ascii) :
  number_char c = true ->
  is_space c = false /\ int_space c = false
  /\ Ascii.eqb c pipe = false /\ Ascii.eqb c newline = false.
Proof.
  destruct c as [[] [] [] [] [] [] [] []]; try discriminate; intros _;
    repeat split; reflexivity.
Qed.

Lemma uint_chars_number (d : Decimal.uint) :
  Forall (fun c => is_digit c = true) (uint_chars d).
Proof.
  induction d; unfold uint_chars;
    cbn [NilEmpty.string_of_uint list_ascii_of_string]; constructor;
    solve [reflexivity | exact IHd].
Qed.

Lemma uint_chars_not_nil (d : Decimal.uint) : d <> Decimal.Nil -> uint_chars d <> [].
Proof. destruct d; [contradiction | discriminate..]. Qed.

(** The characters of [str(n)] are digits, after a minus sign when [n] is
    negative; there is at least one. *)
Lemma py_str_int_chars (n : Z) :
  py_str_int n <> [] /\ Forall (fun c => number_char c = true) (py_str_int n).
Proof.
  assert (Hdigits : forall d, Forall (fun c => number_char c = true) (uint_chars d)).
  { intro d. eapply Forall_impl; [|apply uint_chars_number].
    intros c Hc. unfold number_char. rewrite Hc. reflexivity. }
  unfold py_str_int, py. destruct n as [|p|p]; cbn [Z.to_int NilZero.string_of_int].
  - split; [discriminate | repeat constructor].
  - pose proof (DecimalPos.Unsigned.to_uint_nonnil p) as Hnil.
    replace (NilZero.string_of_uint (Pos.to_uint p))
      with (NilEmpty.string_of_uint (Pos.to_uint p))
      by (destruct (Pos.to_uint p); [contradiction | reflexivity..]).
    split; [apply uint_chars_not_nil, Hnil | apply Hdigits].
  - split; [discriminate|].
    pose proof (DecimalPos.Unsigned.to_uint_nonnil p) as Hnil.
    replace (NilZero.string_of_uint (Pos.to_uint p))
      with (NilEmpty.string_of_uint (Pos.to_uint p))
      by (destruct (Pos.to_uint p); [contradiction | reflexivity..]).
    constructor; [reflexivity | apply Hdigits].
Qed.

Lemma int_lstrip_plain (c : ascii) (s : str) :
  int_space c = false -> int_lstrip (c :: s) = c :: s.
Proof. intro H. cbn [int_lstrip]. rewrite H. reflexivity. Qed.

Lemma int_strip_plain (s : str) :
  Forall (fun c => int_space c = false) s ->
  rev (int_lstrip (rev (int_lstrip s))) = s.
Proof.
  intro H. destruct s as [|c s]; [reflexivity|].
  rewrite int_lstrip_plain by (inversion H; assumption).
  apply Forall_rev in H.
  destruct (rev (c :: s)) as [|c' s'] eqn:E.
  - apply (f_equal (@length ascii)) in E. rewrite length_rev in E. discriminate.
  - rewrite int_lstrip_plain by (inversion H; assumption).
    rewrite <- E. apply rev_involutive.
Qed.

(** [int(str(n))] is [n]. *)
Lemma parse_int_py_str_int (n : Z) : parse_int (py_str_int n) = Some n.
Proof.
  unfold parse_int. rewrite int_strip_plain.
  2:{ eapply Forall_impl; [|apply py_str_int_chars].
      intros c Hc. apply number_char_plain in Hc. tauto. }
  unfold py_str_int, py. destruct n as [|p|p]; cbn [Z.to_int NilZero.string_of_int].
  - reflexivity.
  - pose proof (DecimalPos.Unsigned.to_uint_nonnil p) as Hnil.
    replace (NilZero.string_of_uint (Pos.to_uint p))
      with (NilEmpty.string_of_uint (Pos.to_uint p))
      by (destruct (Pos.to_uint p); [contradiction | reflexivity..]).
    fold (uint_chars (Pos.to_uint p)).
    pose proof (uint_chars_number (Pos.to_uint p)) as Hdig.
    pose proof (parse_digits_uint (Pos.to_uint p) 0 false (or_introl Hnil)) as Hparse.
    rewrite eval_uint_to_uint in Hparse. cbn [Z.of_N] in Hparse.
    destruct (uint_chars (Pos.to_uint p)) as [|c s] eqn:E.
    + exfalso. revert E. apply uint_chars_not_nil, Hnil.
    + inversion Hdig as [|? ? Hc _]; subst.
      replace (Ascii.eqb c "+") with false
        by (destruct c as [[] [] [] [] [] [] [] []]; try discriminate; reflexivity).
      replace (Ascii.eqb c "-") with false
        by (destruct c as [[] [] [] [] [] [] [] []]; try discriminate; reflexivity).
      exact Hparse.
  - pose proof (DecimalPos.Unsigned.to_uint_nonnil p) as Hnil.
    replace (NilZero.string_of_uint (Pos.to_uint p))
      with (NilEmpty.string_of_uint (Pos.to_uint p))
      by (destruct (Pos.to_uint p); [contradiction | reflexivity..]).
    cbn [list_ascii_of_string]. fold (uint_chars (Pos.to_uint p)).
    change (Ascii.eqb "-" "+") with false. change (Ascii.eqb "-" "-") with true.
    cbv iota.
    pose proof (parse_digits_uint (Pos.to_uint p) 0 false (or_introl Hnil)) as Hparse.
    rewrite eval_uint_to_uint in Hparse. cbn [Z.of_N] in Hparse.
    rewrite Hparse. reflexivity.
Qed.

Lemma int_lstrip_length (s : str) : (length (int_lstrip s) <= length s)%nat.
Proof.
  induction s as [|c s IH]; cbn [int_lstrip]; [lia|].
  destruct (int_space c); cbn [length]; lia.
Qed.

Lemma unsigned_part_length (s : str) : (length (unsigned_part s) <= length s)%nat.
Proof.
  unfold unsigned_part.
  assert (H : (length (rev (int_lstrip (rev (int_lstrip s)))) <= length s)%nat).
  { rewrite length_rev.
    etransitivity; [apply int_lstrip_length|]. rewrite length_rev.
    apply int_lstrip_length. }
  destruct (rev (int_lstrip (rev (int_lstrip s)))) as [|c s']; [cbn; lia|].
  cbn [length] in H. destruct (_ || _); cbn [length]; lia.
Qed.

Lemma digit_run_length (s : str) : (length (digit_run s) <= length s)%nat.
Proof.
  induction s as [|c s IH]; cbn [digit_run]; [lia|].
  destruct (_ || _); cbn [length]; lia.
Qed.

(** A string of at most 4300 characters is within the limit on digits. *)
Lemma exceeds_digit_limit_short (s : str) :
  Z.of_nat (length s) <= max_str_digits -> exceeds_digit_limit s = None.
Proof.
  intro H. unfold exceeds_digit_limit.
  destruct (parse_digits 0 false (digit_run (unsigned_part s))); [|reflexivity].
  destruct (Z.ltb_spec max_str_digits (count_digits (digit_run (unsigned_part s))))
    as [Hlt|_]; [|reflexivity].
  exfalso. unfold count_digits in Hlt.
  pose proof (filter_length_le is_digit (digit_run (unsigned_part s))).
  pose proof (digit_run_length (unsigned_part s)).
  pose proof (unsigned_part_length s). lia.
Qed.

Lemma py_int_py_str_int (n : Z) :
  Z.of_nat (length (py_str_int n)) <= max_str_digits ->
  py_int (py_str_int n) = Ok n.
Proof.
  intro H. unfold py_int.
  rewrite exceeds_digit_limit_short, parse_int_py_str_int by exact H. reflexivity.
Qed.

(** ** Splitting and stripping *)

Lemma py_split_not_nil (sep : ascii) (s : str) : py_split sep s <> [].
Proof.
  induction s as [|c s IH]; cbn [py_split]; [discriminate|].
  destruct (Ascii.eqb c sep); [discriminate|].
  destruct (py_split sep s); [contradiction | discriminate].
Qed.

Lemma py_split_no_sep (sep : ascii) (s : str) :
  Forall (fun c => Ascii.eqb c sep = false) s -> py_split sep s = [s].
Proof.
  induction 1 as [|c s Hc _ IH]; cbn [py_split]; [reflexivity|].
  rewrite Hc, IH. reflexivity.
Qed.

Lemma py_split_app_sep (sep : ascii) (s rest : str) :
  Forall (fun c => Ascii.eqb c sep = false) s ->
  py_split sep (s ++ sep :: rest) = s :: py_split sep rest.
Proof.
  induction 1 as [|c s Hc _ IH]; cbn [py_split app].
  - rewrite Ascii.eqb_refl. reflexivity.
  - rewrite Hc, IH. reflexivity.
Qed.

Lemma py_split_join_lines (lines : list str) :
  lines <> [] ->
  Forall (Forall (fun c => Ascii.eqb c newline = false)) lines ->
  py_split newline (join_lines lines) = lines.
Proof.
  intros Hne Hall. induction Hall as [|line rest Hline _ IH]; [contradiction|].
  destruct rest as [|line' rest'].
  - cbn [join_lines]. apply py_split_no_sep, Hline.
  - change (join_lines (line :: line' :: rest'))
      with (line ++ newline :: join_lines (line' :: rest')).
    rewrite py_split_app_sep by exact Hline. f_equal. apply IH. discriminate.
Qed.

(** A string with no white space at either end is its own strip. *)
Lemma strip_clean (s : str) : clean_start s -> clean_start (rev s) -> strip s = s.
Proof.
  intros Hstart Hend. unfold strip, rstrip.
  rewrite (lstrip_of_clean_start s), (lstrip_of_clean_start (rev s)) by assumption.
  apply rev_involutive.
Qed.

Lemma lstrip_spaces (ws s : str) :
  Forall (fun c => is_space c = true) ws -> lstrip (ws ++ s) = lstrip s.
Proof.
  induction 1 as [|c ws Hc _ IH]; cbn [app lstrip]; [reflexivity|].
  rewrite Hc. exact IH.
Qed.

Lemma rstrip_spaces (s ws : str) :
  Forall (fun c => is_space c = true) ws -> rstrip (s ++ ws) = rstrip s.
Proof.
  intro H. unfold rstrip. rewrite rev_app_distr, lstrip_spaces; [reflexivity|].
  apply Forall_rev, H.
Qed.

Lemma lstrip_all_spaces (s : str) :
  Forall (fun c => is_space c = true) s -> lstrip s = [].
Proof.
  intro H. rewrite <- (app_nil_r s), lstrip_spaces by exact H. reflexivity.
Qed.

Lemma lstrip_app_spaces (s ws : str) :
  Forall (fun c => is_space c = true) ws ->
  rstrip (lstrip (s ++ ws)) = rstrip (lstrip s).
Proof.
  intro Hws. induction s as [|c s IH].
  - cbn [app]. rewrite lstrip_all_spaces by exact Hws. reflexivity.
  - cbn [app lstrip]. destruct (is_space c); [exact IH|].
    apply (rstrip_spaces (c :: s)), Hws.
Qed.

(** White space around a string does not change its strip. *)
Lemma strip_spaces_around (before s after : str) :
  Forall (fun c => is_space c = true) before ->
  Forall (fun c => is_space c = true) after ->
  strip (before ++ s ++ after) = strip s.
Proof.
  intros Hb Ha. unfold strip. rewrite lstrip_spaces by exact Hb.
  apply lstrip_app_spaces, Ha.
Qed.

(** X6.  White space before and after the body does not change what the
    parsing steps return or raise. *)
Theorem parse_ignores_surrounding_space (before text after : str) :
  Forall (fun c => is_space c = true) before ->
  Forall (fun c => is_space c = true) after ->
  get_matrix_parse (before ++ text ++ after) = get_matrix_parse text
  /\ start_matrix_parse (before ++ text ++ after) = start_matrix_parse text.
Proof.
  intros Hb Ha. unfold get_matrix_parse, start_matrix_parse.
  rewrite strip_spaces_around by assumption. auto.
Qed.

Lemma parse_ignores_surrounding_space_witness :
  get_matrix_parse ([newline; " "%char] ++ py "|1|2|" ++ [tab; newline])
  = get_matrix_parse (py "|1|2|")
  /\ start_matrix_parse ([newline; " "%char] ++ py "|1|2|" ++ [tab; newline])
     = start_matrix_parse (py "|1|2|").
Proof.
  apply parse_ignores_surrounding_space; repeat constructor.
Defined.

(** ** Documents in the expected format *)

Lemma format_row_split (row : list Z) :
  py_split pipe (format_row row) = [] :: map py_str_int row ++ [[]].
Proof.
  unfold format_row. cbn [py_split]. rewrite Ascii.eqb_refl. f_equal.
  induction row as [|v row IH]; cbn [flat_map map app]; [reflexivity|].
  rewrite <- app_assoc. cbn [app]. rewrite py_split_app_sep, IH; [reflexivity|].
  eapply Forall_impl; [|apply py_str_int_chars].
  intros c Hc. apply number_char_plain in Hc. tauto.
Qed.

Lemma format_row_ends_with_pipe (row : list Z) :
  exists s, rev (format_row row) = pipe :: s.
Proof.
  unfold format_row. induction row as [|v row [s IH]] using rev_ind.
  - exists []. reflexivity.
  - rewrite flat_map_app. cbn [flat_map]. rewrite app_nil_r, !app_comm_cons, !app_assoc.
    rewrite rev_app_distr. cbn [rev app]. eauto.
Qed.

Lemma format_row_strip (row : list Z) : strip (format_row row) = format_row row.
Proof.
  apply strip_clean.
  - reflexivity.
  - destruct (format_row_ends_with_pipe row) as [s ->]. reflexivity.
Qed.

Lemma format_row_no_newline (row : list Z) :
  Forall (fun c => Ascii.eqb c newline = false) (format_row row).
Proof.
  unfold format_row. constructor; [reflexivity|].
  induction row as [|v row IH]; cbn [flat_map]; [constructor|].
  rewrite <- app_assoc. apply Forall_app. split.
  - eapply Forall_impl; [|apply py_str_int_chars].
    intros c Hc. apply number_char_plain in Hc. tauto.
  - constructor; [reflexivity | exact IH].
Qed.

Lemma format_row_fields (row : list Z) :
  line_fields (format_row row) = map py_str_int row.
Proof.
  unfold line_fields. rewrite format_row_strip, format_row_split.
  apply slice_bookends.
Qed.

Lemma join_lines_start (line : str) (rest : list str) :
  exists s, join_lines (line :: rest) = line ++ s.
Proof.
  destruct rest as [|line' rest'].
  - exists []. cbn [join_lines]. rewrite app_nil_r. reflexivity.
  - eexists. reflexivity.
Qed.

Lemma join_lines_end (lines : list str) (last : str) :
  exists s, join_lines (lines ++ [last]) = s ++ last.
Proof.
  induction lines as [|line lines [s IH]].
  - exists []. reflexivity.
  - cbn [app]. destruct (lines ++ [last]) as [|l' ls'] eqn:E.
    + destruct lines; discriminate.
    + change (join_lines (line :: l' :: ls'))
        with (line ++ newline :: join_lines (l' :: ls')).
      rewrite IH. exists (line ++ newline :: s).
      rewrite <- app_assoc. reflexivity.
Qed.

Lemma format_grid_strip (g : grid) : strip (format_grid g) = format_grid g.
Proof.
  unfold format_grid. destruct g as [|row g']; [reflexivity|].
  apply strip_clean.
  - destruct (join_lines_start (format_row row) (map format_row g')) as [s Hs].
    cbn [map]. rewrite Hs. reflexivity.
  - destruct (exists_last (l := row :: g') ltac:(discriminate)) as (g0 & last & ->).
    rewrite map_app. cbn [map].
    destruct (join_lines_end (map format_row g0) (format_row last)) as [s ->].
    rewrite rev_app_distr.
    destruct (format_row_ends_with_pipe last) as [t ->]. reflexivity.
Qed.

Lemma map_outcome_ok {X Y : Type} (f : X -> outcome Y) (h : X -> Y) (xs : list X) :
  (forall x, In x xs -> f x = Ok (h x)) -> map_outcome f xs = Ok (map h xs).
Proof.
  induction xs as [|x xs IH]; intro H; cbn [map_outcome map]; [reflexivity|].
  rewrite H by apply in_eq. cbn [bind].
  rewrite IH by (intros; apply H, in_cons; assumption). reflexivity.
Qed.

Lemma text_rows_format_grid (g : grid) :
  text_rows (format_grid g) = map (map py_str_int) g.
Proof.
  unfold text_rows, format_grid. destruct g as [|row g']; [reflexivity|].
  rewrite py_split_join_lines.
  - induction (row :: g') as [|r rs IH]; [reflexivity|].
    cbn [map filter]. rewrite format_row_strip.
    change (truthy (format_row r)) with true. cbn [map].
    rewrite format_row_fields. f_equal. exact IH.
  - discriminate.
  - apply Forall_map, Forall_forall. intros r _. apply format_row_no_newline.
Qed.

Lemma map_outcome_py_int_py_str_int (row : list Z) :
  Forall (fun v => Z.of_nat (length (py_str_int v)) <= max_str_digits) row ->
  map_outcome py_int (map py_str_int row) = Ok row.
Proof.
  induction 1 as [|v row Hv _ IH]; cbn [map map_outcome]; [reflexivity|].
  rewrite py_int_py_str_int by exact Hv. cbn [bind]. rewrite IH. reflexivity.
Qed.

Lemma map_outcome_rows_py_str_int (g : grid) :
  within_digit_limit g ->
  map_outcome (fun row => map_outcome py_int row) (map (map py_str_int) g) = Ok g.
Proof.
  induction 1 as [|row g Hrow _ IH]; cbn [map map_outcome]; [reflexivity|].
  rewrite map_outcome_py_int_py_str_int by exact Hrow. cbn [bind].
  rewrite IH. reflexivity.
Qed.

Lemma rows_matrix_format_grid (g : grid) :
  within_digit_limit g ->
  rows_matrix (text_rows (format_grid g)) = Ok (filter truthy g).
Proof.
  intro Hlimit. rewrite text_rows_format_grid. unfold rows_matrix.
  replace (filter truthy (map (map py_str_int) g))
    with (map (map py_str_int) (filter truthy g)).
  - apply map_outcome_rows_py_str_int.
    unfold within_digit_limit in *. rewrite Forall_forall in *.
    intros row Hrow. apply Hlimit. apply filter_In in Hrow. tauto.
  - clear Hlimit. induction g as [|row g IH]; [reflexivity|].
    cbn [filter map]. destruct row; cbn [truthy map]; rewrite IH; reflexivity.
Qed.

(** X7.  A document in the expected format, one line [|v1|...|vn|] per row
    with the integers written as [str] writes them, each in at most 4300
    characters, parses back to its grid in both parsing steps; rows without
    cells are left out. *)
Theorem parse_format_grid (g : grid) :
  within_digit_limit g ->
  get_matrix_parse (format_grid g) = Ok (filter truthy g)
  /\ start_matrix_parse (format_grid g) = Ok (filter truthy g).
Proof.
  intro Hlimit. unfold get_matrix_parse, start_matrix_parse.
  rewrite !format_grid_strip. split; apply rows_matrix_format_grid, Hlimit.
Qed.

Lemma parse_format_grid_witness :
  get_matrix_parse (format_grid [[1; -20]; []; [300; 4]])
  = Ok (filter truthy [[1; -20]; []; [300; 4]])
  /\ start_matrix_parse (format_grid [[1; -20]; []; [300; 4]])
     = Ok (filter truthy [[1; -20]; []; [300; 4]]).
Proof.
  apply (parse_format_grid [[1; -20]; []; [300; 4]]).
  repeat constructor; vm_compute; discriminate.
Defined.

Example format_grid_reference : format_grid reference_grid = reference_body.
Proof. vm_compute. reflexivity. Qed.

(** ** When the parsing step succeeds *)

Lemma py_int_ok (field : str) (n : Z) : py_int field = Ok n -> n = int_value field.
Proof.
  intro H. apply py_int_ok_inv in H. unfold int_value. rewrite H. reflexivity.
Qed.

(** The parsing step raises nothing but what [int] raises at a field of a
    retained row. *)
Lemma get_matrix_parse_raises (text : str) (e : exn) :
  get_matrix_parse text = Raise e ->
  exists row bad,
    In row (text_rows (strip text)) /\ In bad row /\ py_int bad = Raise e.
Proof.
  unfold get_matrix_parse, rows_matrix. intro H.
  apply map_outcome_raise_inv in H as (row & Hrow & H).
  apply map_outcome_raise_inv in H as (bad & Hbad & H).
  apply filter_In in Hrow as [Hrow _]. eauto.
Qed.

Lemma get_matrix_parse_ok (text : str) :
  (forall row field,
     In row (text_rows (strip text)) -> In field row ->
     exists n, py_int field = Ok n) ->
  get_matrix_parse text
  = Ok (map (map int_value) (filter truthy (text_rows (strip text)))).
Proof.
  intro Hall. unfold get_matrix_parse, rows_matrix.
  apply map_outcome_ok. intros row Hrow. apply filter_In in Hrow as [Hrow _].
  apply map_outcome_ok. intros field Hfield.
  destruct (Hall row field Hrow Hfield) as [n Hn].
  rewrite Hn. f_equal. apply py_int_ok, Hn.
Qed.

Lemma fields_all_or_bad (rows : list (list str)) :
  (forall row field, In row rows -> In field row -> exists n, py_int field = Ok n)
  \/ exists row field,
       In row rows /\ In field row /\ exists e, py_int field = Raise e.
Proof.
  induction rows as [|row rows [IH|(r & f & Hr & Hf & Hbad)]].
  - left. intros row field [].
  - assert (Hrow : (forall field, In field row -> exists n, py_int field = Ok n)
                   \/ exists field, In field row /\ exists e, py_int field = Raise e).
    { clear. induction row as [|f row [IH|(f' & Hf' & Hbad)]].
      - left. intros field [].
      - pose proof (py_int_not_out_of_fuel f) as Hfuel.
        destruct (py_int f) as [n|e|] eqn:E.
        + left. intros field [<-|Hin]; [eauto | auto].
        + right. exists f. eauto using in_eq.
        + contradiction.
      - right. exists f'. auto using in_cons. }
    destruct Hrow as [Hrow|(f & Hf & Hbad)].
    + left. intros r field [<-|Hin]; eauto.
    + right. exists row, f. auto using in_eq.
  - right. exists r, f. auto using in_cons.
Qed.

Lemma get_matrix_parse_shape (text : str) (g : grid) :
  get_matrix_parse text = Ok g ->
  g = map (map int_value) (filter truthy (text_rows (strip text))).
Proof.
  intro Hg.
  destruct (fields_all_or_bad (text_rows (strip text)))
    as [Hall|(row & field & Hrow & Hfield & Hbad)].
  - rewrite get_matrix_parse_ok in Hg by exact Hall. congruence.
  - destruct (rows_matrix_raises _ row field Hrow Hfield Hbad)
      as (_ & _ & e & _ & _ & _ & Hraise).
    unfold get_matrix_parse in Hg. congruence.
Qed.

(** X8.  The parsing step returns a grid exactly when [int] accepts every
    field of every retained row; the grid then holds the integers of the
    rows that have a field, in order.  Otherwise it raises what [int]
    raises at a field it refuses, and nothing else. *)
Theorem parse_succeeds_iff_fields_are_integers (text : str) :
  ((exists g, get_matrix_parse text = Ok g)
   <-> (forall row field,
          In row (text_rows (strip text)) -> In field row ->
          exists n, py_int field = Ok n))
  /\ (forall g, get_matrix_parse text = Ok g ->
        g = map (map int_value) (filter truthy (text_rows (strip text))))
  /\ (forall e, get_matrix_parse text = Raise e ->
        exists row bad,
          In row (text_rows (strip text)) /\ In bad row /\ py_int bad = Raise e).
Proof.
  split; [|split].
  - split.
    + intros [g Hg] row field Hrow Hfield.
      pose proof (py_int_not_out_of_fuel field) as Hfuel.
      destruct (py_int field) as [n|e|] eqn:E; [eauto| |contradiction].
      destruct (rows_matrix_raises _ row field Hrow Hfield (ex_intro _ e E))
        as (_ & _ & e' & _ & _ & _ & Hraise).
      unfold get_matrix_parse in Hg. congruence.
    + intro Hall. eexists. apply get_matrix_parse_ok, Hall.
  - apply get_matrix_parse_shape.
  - apply get_matrix_parse_raises.
Qed.

Lemma parse_succeeds_iff_fields_are_integers_witness :
  (exists g, get_matrix_parse (py "|1|2|") = Ok g)
  /\ [[1; 2]] = map (map int_value)
                  (filter truthy (text_rows (strip (py "|1|2|"))))
  /\ exists row bad,
       In row (text_rows (strip (py "|1|x|"))) /\ In bad row
       /\ py_int bad = Raise (int_error (py "x")).
Proof.
  split; [|split].
  - apply (proj1 (parse_succeeds_iff_fields_are_integers (py "|1|2|"))).
    intros row field Hrow Hfield. vm_compute in Hrow.
    destruct Hrow as [<-|[]].
    destruct Hfield as [<-|[<-|[]]]; eexists; vm_compute; reflexivity.
  - apply (proj1 (proj2 (parse_succeeds_iff_fields_are_integers (py "|1|2|")))).
    vm_compute. reflexivity.
  - apply (proj2 (proj2 (parse_succeeds_iff_fields_are_integers (py "|1|x|")))).
    vm_compute. reflexivity.
Defined.

(** X9.  No row of a parsed grid is empty, and the grid has at most as
    many rows as the text has lines that are not blank. *)
Theorem parsed_rows_are_not_empty (text : str) (g : grid) :
  get_matrix_parse text = Ok g ->
  Forall (fun row => row <> []) g
  /\ (length g
      <= length (filter (fun line => truthy (strip line))
                   (py_split newline (strip text))))%nat.
Proof.
  intro Hg. rewrite (get_matrix_parse_shape text g Hg). split.
  - apply Forall_map, Forall_forall. intros row Hrow.
    apply filter_In in Hrow as [_ Hrow]. destruct row; [discriminate|discriminate].
  - rewrite length_map. unfold text_rows.
    etransitivity; [apply filter_length_le|]. rewrite length_map. reflexivity.
Qed.

Lemma parsed_rows_are_not_empty_witness :
  Forall (fun row => row <> []) [[1; 2]]
  /\ (length [[1; 2]]
      <= length (filter (fun line => truthy (strip line))
                   (py_split newline (strip (py "|1|2|")))))%nat.
Proof.
  apply (parsed_rows_are_not_empty (py "|1|2|") [[1; 2]]). reflexivity.
Defined.

(** ** get_matrix from end to end *)

Lemma filter_truthy_rectangular (g : grid) (rows cols : Z) :
  rectangular g rows cols -> 0 < cols -> filter truthy g = g.
Proof.
  intros [_ Hall] Hcols. induction Hall as [|row g Hrow _ IH]; [reflexivity|].
  cbn [filter]. destruct row; [unfold len in Hrow; simpl in Hrow; lia|].
  cbn [truthy]. rewrite IH. reflexivity.
Qed.

(** What [get_matrix] does with the document of a grid whose rows have a
    cell, once the traversal of the grid is known. *)
Lemma get_matrix_format_grid (net : network) (url : str) (w : world)
  (r : response) (g : grid) (rows cols : Z) (before after : str) (out : list Z) :
  rectangular g rows cols -> 0 < cols -> within_digit_limit g ->
  Forall (fun c => is_space c = true) before ->
  Forall (fun c => is_space c = true) after ->
  net url = inr r -> status r = 200 ->
  body r = inr (before ++ format_grid g ++ after) ->
  counterclockwise_traversal g = Ok out ->
  get_matrix net url w = (Ok out, read_body (send_request url w)).
Proof.
  intros Hrect Hcols Hlimit Hb Ha Hnet Hstatus Hbody Hrun.
  unfold get_matrix, try_block. rewrite Hnet, Hstatus, Hbody.
  change (200 >=? 500) with false. change (negb (200 =? 200)) with false.
  cbv iota. unfold get_matrix_parse.
  rewrite strip_spaces_around, format_grid_strip, rows_matrix_format_grid
    by assumption.
  rewrite (filter_truthy_rectangular g rows cols) by assumption.
  cbn [bind]. rewrite Hrun. reflexivity.
Qed.

(** X10.  When the server answers 200 with the document of a rectangular
    grid that has a cell, every cell written in at most 4300 characters,
    with any white space around it, [get_matrix] returns the traversal of
    that grid, a permutation of its cells, after one request and one
    reading of the body, and logs nothing. *)
Theorem get_matrix_on_formatted_document (net : network) (url : str) (w : world)
  (r : response) (g : grid) (rows cols : Z) (before after : str) :
  rectangular g rows cols -> 0 < rows -> 0 < cols -> within_digit_limit g ->
  Forall (fun c => is_space c = true) before ->
  Forall (fun c => is_space c = true) after ->
  net url = inr r -> status r = 200 ->
  body r = inr (before ++ format_grid g ++ after) ->
  exists out,
    get_matrix net url w = (Ok out, read_body (send_request url w))
    /\ counterclockwise_traversal g = Ok out
    /\ Permutation out (concat g).
Proof.
  intros Hrect Hrows Hcols Hlimit Hb Ha Hnet Hstatus Hbody.
  destruct (traversal_run_rectangular g rows cols Hrect Hrows)
    as (st & Hrun & _ & Hres).
  apply counterclockwise_traversal_run in Hrun.
  exists (result st). split; [|split].
  - apply (get_matrix_format_grid net url w r g rows cols before after); assumption.
  - exact Hrun.
  - rewrite Hres, <- (cells_of_rect g rows cols Hrect).
    apply Permutation_map, rings_cover_rect.
    destruct Hrect as [Hlen _]. unfold len in Hlen. lia.
Qed.

Lemma get_matrix_on_formatted_document_witness :
  exists out,
    get_matrix (answer 200 ([newline] ++ format_grid [[1; 2]; [3; 4]] ++ [newline]))
      example_url fresh_world
    = (Ok out, read_body (send_request example_url fresh_world))
    /\ counterclockwise_traversal [[1; 2]; [3; 4]] = Ok out
    /\ Permutation out (concat [[1; 2]; [3; 4]]).
Proof.
  apply (get_matrix_on_formatted_document
           (answer 200 ([newline] ++ format_grid [[1; 2]; [3; 4]] ++ [newline]))
           example_url fresh_world
           (mk_response 200 (py "") example_url
              (inr ([newline] ++ format_grid [[1; 2]; [3; 4]] ++ [newline]))
              ([newline] ++ format_grid [[1; 2]; [3; 4]] ++ [newline]))
           [[1; 2]; [3; 4]] 2 2 [newline] [newline]).
  - split; [reflexivity | repeat constructor].
  - lia.
  - lia.
  - repeat constructor; vm_compute; discriminate.
  - repeat constructor.
  - repeat constructor.
  - reflexivity.
  - reflexivity.
  - reflexivity.
Defined.

(** X11.  When the status is 200 and the body parses to a grid with a row
    shorter than the first, [get_matrix] logs and raises a [ValueError]
    whose message is that of the last clause around [list index out of
    range]. *)
Theorem get_matrix_on_short_row (net : network) (url : str) (w : world)
  (r : response) (text : str) (g : grid) :
  net url = inr r -> status r = 200 -> body r = inr text ->
  get_matrix_parse text = Ok g ->
  Exists (fun row => (length row < length (hd [] g))%nat) g ->
  get_matrix net url w
  = (Raise (value_error (generic_text url (py "list index out of range"))),
     logger_error (generic_text url (py "list index out of range"))
       (read_body (send_request url w))).
Proof.
  intros Hnet Hstatus Hbody Hparse Hshort.
  assert (Htrav : counterclockwise_traversal g = Raise index_error).
  { destruct g as [|row0 rest]; [inversion Hshort|].
    pose proof (traversal_read_cells row0 rest) as H. cbv zeta in H.
    rewrite read_cells_short_row in H by exact Hshort. exact H. }
  unfold get_matrix, try_block. rewrite Hnet, Hstatus, Hbody.
  change (200 >=? 500) with false. change (negb (200 =? 200)) with false.
  cbv iota. rewrite Hparse. cbn [bind]. rewrite Htrav. reflexivity.
Qed.

Lemma get_matrix_on_short_row_witness :
  get_matrix (answer 200 (py "|1|2|" ++ [newline] ++ py "|3|"))
    example_url fresh_world
  = (Raise (value_error (generic_text example_url (py "list index out of range"))),
     logger_error (generic_text example_url (py "list index out of range"))
       (read_body (send_request example_url fresh_world))).
Proof.
  apply (get_matrix_on_short_row
           (answer 200 (py "|1|2|" ++ [newline] ++ py "|3|"))
           example_url fresh_world
           (mk_response 200 (py "") example_url
              (inr (py "|1|2|" ++ [newline] ++ py "|3|"))
              (py "|1|2|" ++ [newline] ++ py "|3|"))
           (py "|1|2|" ++ [newline] ++ py "|3|")
           [[1; 2]; [3]]); try reflexivity.
  right. left. simpl. lia.
Defined.

Lemma try_block_body_reads (net : network) (url : str) (w : world) :
  body_reads (snd (try_block net url w)) = body_reads w
  \/ body_reads (snd (try_block net url w)) = S (body_reads w).
Proof.
  unfold try_block.
  destruct (net url) as [e|r]; [left; reflexivity|].
  destruct (status r >=? 500); [left; reflexivity|].
  destruct (negb (status r =? 200)); [left; reflexivity|].
  destruct (body r); right; reflexivity.
Qed.

(** X12.  Every call of [get_matrix] sends exactly one request and reads
    at most one body.  It either returns a list and logs nothing, or
    raises a [ValueError] whose message names the URL and logs that message
    once at severity [ERROR]. *)
Theorem get_matrix_effects (net : network) (url : str) (w : world) :
  requests (snd (get_matrix net url w)) = requests w ++ [url]
  /\ (body_reads (snd (get_matrix net url w)) = body_reads w
      \/ body_reads (snd (get_matrix net url w)) = S (body_reads w))
  /\ ((exists out,
         fst (get_matrix net url w) = Ok out
         /\ log (snd (get_matrix net url w)) = log w)
      \/ (exists msg,
            fst (get_matrix net url w) = Raise (value_error msg)
            /\ log (snd (get_matrix net url w)) = log w ++ [(ERROR, msg)]
            /\ contains msg url)).
Proof.
  destruct (try_block_world net url w) as [Hreq Hlog].
  pose proof (try_block_body_reads net url w) as Hreads.
  pose proof (try_block_not_out_of_fuel net url w) as Hfuel.
  unfold get_matrix.
  destruct (try_block net url w) as [[out|e|] w1]; cbn [fst snd] in *.
  - split; [exact Hreq|]. split; [exact Hreads|]. left. eauto.
  - destruct (first_clause_total url e) as (msg & -> & Hurl & _).
    cbn [fst snd logger_error requests body_reads log].
    split; [exact Hreq|]. split; [exact Hreads|].
    right. exists msg. rewrite Hlog. auto.
  - contradiction.
Qed.

(** X13.  The messages of the clauses for [ServerTimeoutError] and
    [ServerDisconnectedError] are never raised: both classes derive from
    [ClientConnectionError], whose clause comes first. *)
Theorem server_clauses_never_run (net : network) (url : str) (w : world) (msg : str) :
  fst (get_matrix net url w) = Raise (value_error msg) ->
  ~ starts_with msg (py "Server at ")
  /\ ~ starts_with msg (py "Connection to server at ").
Proof.
  unfold get_matrix.
  pose proof (try_block_not_out_of_fuel net url w) as Hfuel.
  destruct (try_block net url w) as [[out|e|] w1]; cbn [fst] in *;
    [discriminate| |contradiction].
  destruct e as [cls text].
  destruct cls; cbn [first_clause except_clauses isinstance ancestors exn_cls
                     existsb exn_class_eqb orb fst];
    intros [= <-]; split; intros [rest Hrest]; cbn in Hrest; discriminate Hrest.
Qed.

Lemma server_clauses_never_run_witness :
  ~ starts_with
      (py "Failed to connect to the server at " ++ example_url
       ++ py ". Error: " ++ py "timed out")
      (py "Server at ")
  /\ ~ starts_with
         (py "Failed to connect to the server at " ++ example_url
          ++ py ". Error: " ++ py "timed out")
         (py "Connection to server at ").
Proof.
  apply (server_clauses_never_run
           (fun _ => inl (mk_exn ServerTimeoutError (py "timed out")))
           example_url fresh_world).
  reflexivity.
Defined.

(** ** start_matrix_data *)

Lemma get_matrix_ok_inv (net : network) (url : str) (w : world) (out : list Z) :
  fst (get_matrix net url w) = Ok out ->
  exists r text g,
    net url = inr r /\ status r = 200 /\ body r = inr text
    /\ get_matrix_parse text = Ok g
    /\ counterclockwise_traversal g = Ok out
    /\ snd (get_matrix net url w) = read_body (send_request url w).
Proof.
  unfold get_matrix, try_block.
  destruct (net url) as [e|r] eqn:Hnet.
  { destruct (first_clause_total url e) as (msg & -> & _). discriminate. }
  rewrite Z.geb_leb.
  destruct (Z.leb_spec 500 (status r)).
  { rewrite first_clause_value_error. discriminate. }
  destruct (Z.eqb_spec (status r) 200) as [Hst|]; cbn [negb].
  2:{ rewrite first_clause_value_error. discriminate. }
  destruct (body r) as [e|text] eqn:Hbody.
  { destruct (first_clause_total url e) as (msg & -> & _). discriminate. }
  destruct (get_matrix_parse text) as [g|e|] eqn:Hparse; cbn [bind].
  - destruct (counterclockwise_traversal g) as [res|e|] eqn:Htrav.
    + cbn [fst snd]. intros [= <-]. exists r, text, g. repeat split; auto.
    + destruct (first_clause_total url e) as (msg & -> & _). discriminate.
    + discriminate.
  - destruct (first_clause_total url e) as (msg & -> & _). discriminate.
  - discriminate.
Qed.

(** X14.  Whenever [get_matrix] returns a list for an answer of the
    network whose body the two clients decode to the same text,
    [start_matrix_data] returns a grid for that answer, and the list is the
    traversal of that grid. *)
Theorem start_matrix_data_agrees_with_get_matrix (net : network) (url : str)
  (w w' : world) (out : list Z) (r : response) :
  fst (get_matrix net url w) = Ok out ->
  net url = inr r -> body r = inr (requests_text r) ->
  exists g,
    start_matrix_data net url w' = (Ok g, read_body (send_request url w'))
    /\ counterclockwise_traversal g = Ok out.
Proof.
  intros H Hr Hsame.
  apply get_matrix_ok_inv in H
    as (r' & text & g & Hnet & Hst & Hbody & Hparse & Htrav & _).
  assert (r' = r) by congruence. subst r'.
  assert (text = requests_text r) by congruence. subst text.
  exists g. split; [|exact Htrav].
  unfold start_matrix_data, raise_for_status. rewrite Hnet, Hst.
  cbn [Z.leb Z.ltb Z.compare Pos.compare Pos.compare_cont andb].
  unfold start_matrix_parse. rewrite strip_idempotent.
  unfold get_matrix_parse in Hparse. rewrite Hparse. reflexivity.
Qed.

Lemma start_matrix_data_agrees_with_get_matrix_witness :
  exists g,
    start_matrix_data (answer 200 (py "|1|2|")) example_url fresh_world
    = (Ok g, read_body (send_request example_url fresh_world))
    /\ counterclockwise_traversal g = Ok [1; 2].
Proof.
  apply (start_matrix_data_agrees_with_get_matrix
           (answer 200 (py "|1|2|")) example_url fresh_world fresh_world [1; 2]
           (mk_response 200 (py "") example_url (inr (py "|1|2|")) (py "|1|2|"))).
  - reflexivity.
  - reflexivity.
  - reflexivity.
Defined.

(** X15.  [start_matrix_data] looks at the status only through
    [raise_for_status]: a status from 400 to 599 raises its exception, which
    is no [ValueError], before the body is read; with any other status, 200
    or not, the text of the body is read and parsed. *)
Theorem start_matrix_data_status (net : network) (url : str) (w : world)
  (r : response) :
  net url = inr r ->
  (400 <= status r < 600 ->
     exists e,
       start_matrix_data net url w = (Raise e, send_request url w)
       /\ isinstance e ValueError = false
       /\ contains (exn_text e) (py_str_int (status r)))
  /\ (status r < 400 \/ 600 <= status r ->
      start_matrix_data net url w
      = (start_matrix_parse (requests_text r), read_body (send_request url w))).
Proof.
  intro Hnet. unfold start_matrix_data, raise_for_status. rewrite Hnet. split.
  - intros [Hlo Hhi].
    destruct (Z.leb_spec 400 (status r)); [|lia].
    destruct (Z.ltb_spec (status r) 500); cbn [andb].
    + eexists. split; [reflexivity|]. split; [reflexivity|]. apply contains_here.
    + destruct (Z.leb_spec 500 (status r)); [|lia].
      destruct (Z.ltb_spec (status r) 600); [|lia]. cbn [andb].
      eexists. split; [reflexivity|]. split; [reflexivity|]. apply contains_here.
  - intros Hout.
    destruct (Z.leb_spec 400 (status r));
      destruct (Z.ltb_spec (status r) 500);
      destruct (Z.leb_spec 500 (status r));
      destruct (Z.ltb_spec (status r) 600); cbn [andb]; try lia; reflexivity.
Qed.

Lemma start_matrix_data_status_witness :
  (exists e,
     start_matrix_data (answer 404 (py "|1|")) example_url fresh_world
     = (Raise e, send_request example_url fresh_world)
     /\ isinstance e ValueError = false
     /\ contains (exn_text e) (py_str_int 404))
  /\ start_matrix_data (answer 201 (py "|1|")) example_url fresh_world
     = (start_matrix_parse (py "|1|"), read_body (send_request example_url fresh_world)).
Proof.
  split.
  - apply (proj1 (start_matrix_data_status (answer 404 (py "|1|")) example_url
                    fresh_world _ eq_refl)).
    cbn. lia.
  - apply (proj2 (start_matrix_data_status (answer 201 (py "|1|")) example_url
                    fresh_world _ eq_refl)).
    cbn. lia.
Defined.

(** X16.  [start_matrix_data] sends exactly one request and never logs;
    what it raises is, as it was raised, the exception of the request, that
    of [raise_for_status], or what [int] raises at a field of a retained
    row. *)
Theorem start_matrix_data_effects (net : network) (url : str) (w : world) :
  requests (snd (start_matrix_data net url w)) = requests w ++ [url]
  /\ log (snd (start_matrix_data net url w)) = log w
  /\ fst (start_matrix_data net url w) <> OutOfFuel
  /\ (forall e, fst (start_matrix_data net url w) = Raise e ->
        net url = inl e
        \/ exists r,
             net url = inr r
             /\ (raise_for_status r = Raise e
                 \/ exists row bad,
                      In row (text_rows (strip (requests_text r)))
                      /\ In bad row /\ py_int bad = Raise e)).
Proof.
  unfold start_matrix_data.
  destruct (net url) as [e0|r].
  { repeat split; try discriminate. intros e [= ->]. auto. }
  destruct (raise_for_status r) as [[]|e0|] eqn:Hstatus.
  - cbn [fst snd read_body send_request requests log].
    repeat split.
    + unfold start_matrix_parse. apply rows_matrix_not_out_of_fuel.
    + intros e He. right. exists r. split; [reflexivity|]. right.
      unfold start_matrix_parse in He.
      rewrite (strip_idempotent (requests_text r)) in He.
      apply get_matrix_parse_raises in He. exact He.
  - repeat split; try discriminate. intros e [= ->]. right. eauto.
  - exfalso. unfold raise_for_status in Hstatus.
    destruct (_ && _); [discriminate|]. destruct (_ && _); discriminate.
Qed.

Lemma start_matrix_data_effects_witness :
  answer 200 (py "|x|") example_url = inl (int_error (py "x"))
  \/ exists r,
       answer 200 (py "|x|") example_url = inr r
       /\ (raise_for_status r = Raise (int_error (py "x"))
           \/ exists row bad,
                In row (text_rows (strip (requests_text r)))
                /\ In bad row /\ py_int bad = Raise (int_error (py "x"))).
Proof.
  destruct (start_matrix_data_effects (answer 200 (py "|x|")) example_url fresh_world)
    as (_ & _ & _ & Hraise).
  apply Hraise. vm_compute. reflexivity.
Defined.

(** ** The view *)

Lemma get_matrix_raises (net : network) (url : str) (w w1 : world) (e : exn) :
  try_block net url w = (Raise e, w1) ->
  exists msg,
    get_matrix net url w = (Raise (value_error msg), logger_error msg w1)
    /\ contains msg url.
Proof.
  intro Htry. destruct (first_clause_total url e) as (msg & Hclause & Hurl & _).
  exists msg. unfold get_matrix. rewrite Htry, Hclause. auto.
Qed.

Lemma start_matrix_data_world (net : network) (url : str) (w : world) :
  requests (snd (start_matrix_data net url w)) = requests w ++ [url]
  /\ log (snd (start_matrix_data net url w)) = log w.
Proof.
  unfold start_matrix_data.
  destruct (net url) as [e|r]; [auto|].
  destruct (raise_for_status r) as [[]|e|]; auto.
Qed.

Lemma start_matrix_data_not_out_of_fuel (net : network) (url : str) (w : world) :
  fst (start_matrix_data net url w) <> OutOfFuel.
Proof.
  unfold start_matrix_data.
  destruct (net url) as [e|r]; [discriminate|].
  destruct (raise_for_status r) as [[]|e|] eqn:Hstatus; [|discriminate|].
  - apply rows_matrix_not_out_of_fuel.
  - exfalso. unfold raise_for_status in Hstatus.
    destruct (_ && _); [discriminate|]. destruct (_ && _); discriminate.
Qed.

(** X17.  When [get_matrix] fails, the view answers 400 with the message of
    its [ValueError], which names the URL; it has sent one request only,
    [start_matrix_data] is not called and no row is created. *)
Theorem post_when_get_matrix_fails (fw : framework) (nets : nat -> network)
  (url : str) (w w1 : world) (db : database) (e : exn) :
  url <> [] ->
  try_block (nets (length (requests w))) url w = (Raise e, w1) ->
  exists msg,
    post fw nets (Some url) w db
    = (Ok (mk_reply 400 (error_payload msg)), logger_error msg w1, db)
    /\ contains msg url
    /\ requests (logger_error msg w1) = requests w ++ [url].
Proof.
  intros Hurl Htry. destruct url as [|c u]; [contradiction|].
  destruct (get_matrix_raises _ _ _ _ _ Htry) as (msg & Hget & Hmsg).
  exists msg. unfold post, post_try. rewrite Hget. split; [reflexivity|].
  split; [exact Hmsg|].
  destruct (try_block_world (nets (length (requests w))) (c :: u) w) as [Hreq _].
  rewrite Htry in Hreq. exact Hreq.
Qed.

Lemma post_when_get_matrix_fails_witness :
  exists msg,
    post quiet_framework (fun _ => answer 503 (py "|1|")) (Some example_url)
      fresh_world []
    = (Ok (mk_reply 400 (error_payload msg)),
       logger_error msg (send_request example_url fresh_world), [])
    /\ contains msg example_url
    /\ requests (logger_error msg (send_request example_url fresh_world))
       = requests fresh_world ++ [example_url].
Proof.
  apply (post_when_get_matrix_fails quiet_framework (fun _ => answer 503 (py "|1|"))
           example_url fresh_world (send_request example_url fresh_world) []
           (value_error (server_error_text example_url 503))).
  - discriminate.
  - reflexivity.
Defined.

(** X18.  When the view answers 200, its payload is the list [get_matrix]
    returned for the first request, one row was created, holding the grid
    [start_matrix_data] returned for the second request and that list, two
    requests were sent to the URL and nothing was logged. *)
Theorem post_reply_200 (fw : framework) (nets : nat -> network)
  (url : option str) (w w' : world) (db db' : database) (rep : reply) :
  post fw nets url w db = (Ok rep, w', db') ->
  reply_status rep = 200 ->
  exists u start data w1,
    url = Some u
    /\ rep = mk_reply 200 (data_payload data)
    /\ get_matrix (nets (length (requests w))) u w = (Ok data, w1)
    /\ start_matrix_data (nets (S (length (requests w)))) u w1 = (Ok start, w')
    /\ db' = db ++ [(start, data)]
    /\ requests w' = requests w ++ [u; u]
    /\ log w' = log w.
Proof.
  unfold post. destruct url as [[|c u]|]; try (intros [= <- _ _]; discriminate).
  unfold post_try.
  destruct (get_matrix (nets (length (requests w))) (c :: u) w) as [[data|e|] w1] eqn:Hget.
  - assert (Hw1 : requests w1 = requests w ++ [c :: u] /\ log w1 = log w).
    { pose proof (get_matrix_ok_inv _ _ _ data ltac:(rewrite Hget; reflexivity))
        as (_ & _ & _ & _ & _ & _ & _ & _ & Hsnd).
      rewrite Hget in Hsnd. cbn [snd] in Hsnd. subst w1. auto. }
    destruct Hw1 as [Hreq1 Hlog1].
    assert (Hlen : length (requests w1) = S (length (requests w)))
      by (rewrite Hreq1, length_app; simpl; lia).
    rewrite Hlen.
    pose proof (start_matrix_data_world (nets (S (length (requests w)))) (c :: u) w1)
      as [Hreq2 Hlog2].
    destruct (start_matrix_data _ (c :: u) w1) as [[start|e|] w2] eqn:Hstart;
      cbn [snd] in Hreq2, Hlog2.
    + destruct (create_raises fw start data) as [e|].
      { destruct (isinstance e ValueError); intros [= <- _ _]; discriminate. }
      destruct (serializer_raises fw start data) as [e|].
      { destruct (isinstance e ValueError); intros [= <- _ _]; discriminate. }
      intros [= <- <- <-] _. exists (c :: u), start, data, w1.
      repeat split; auto.
      * rewrite Hreq2, Hreq1, <- app_assoc. reflexivity.
      * congruence.
    + destruct (isinstance e ValueError); intros [= <- _ _]; discriminate.
    + discriminate.
  - destruct (isinstance e ValueError); intros [= <- _ _]; discriminate.
  - discriminate.
Qed.

Lemma post_reply_200_witness :
  exists u start data w1,
    Some example_url = Some u
    /\ mk_reply 200 (data_payload [1; 2]) = mk_reply 200 (data_payload data)
    /\ get_matrix (answer 200 (py "|1|2|")) u fresh_world = (Ok data, w1)
    /\ start_matrix_data (answer 200 (py "|1|2|")) u w1
       = (Ok start,
          read_body (send_request example_url
                       (read_body (send_request example_url fresh_world))))
    /\ [([[1; 2]], [1; 2])] = [] ++ [(start, data)]
    /\ requests (read_body (send_request example_url
                              (read_body (send_request example_url fresh_world))))
       = requests fresh_world ++ [u; u]
    /\ log (read_body (send_request example_url
                         (read_body (send_request example_url fresh_world))))
       = log fresh_world.
Proof.
  apply (post_reply_200 quiet_framework (fun _ => answer 200 (py "|1|2|"))
           (Some example_url) fresh_world _ [] [([[1; 2]], [1; 2])]
           (mk_reply 200 (data_payload [1; 2]))).
  - reflexivity.
  - reflexivity.
Defined.

Lemma get_matrix_world (net : network) (url : str) (w : world) :
  requests (snd (get_matrix net url w)) = requests w ++ [url].
Proof.
  unfold get_matrix.
  destruct (try_block_world net url w) as [Hreq _].
  destruct (try_block net url w) as [[out|e|] w1]; cbn [snd] in *; auto.
  destruct (first_clause (except_clauses url) e); exact Hreq.
Qed.

(** X19.  Whatever the request, the network and the framework do, the view
    returns or raises; a reply has status 200 or 400; no [ValueError]
    leaves the view; at most one row is created; and at most two requests
    are sent, both to the URL of the request. *)
Theorem post_invariants (fw : framework) (nets : nat -> network)
  (url : option str) (w : world) (db : database) :
  let res := fst (fst (post fw nets url w db)) in
  let w' := snd (fst (post fw nets url w db)) in
  let db' := snd (post fw nets url w db) in
  res <> OutOfFuel
  /\ (forall rep, res = Ok rep -> reply_status rep = 200 \/ reply_status rep = 400)
  /\ (forall e, res = Raise e -> isinstance e ValueError = false)
  /\ (db' = db \/ exists row, db' = db ++ [row])
  /\ (requests w' = requests w
      \/ (exists u, url = Some u /\ requests w' = requests w ++ [u])
      \/ (exists u, url = Some u /\ requests w' = requests w ++ [u; u])).
Proof.
  cbv zeta. unfold post.
  destruct url as [[|c u]|];
    try (cbn [fst snd]; repeat split; try discriminate; auto;
         intros rep [= <-]; auto).
  unfold post_try.
  pose proof (get_matrix_world (nets (length (requests w))) (c :: u) w) as Hreq1.
  pose proof (get_matrix_total (nets (length (requests w))) (c :: u) w) as Htotal.
  destruct (get_matrix _ (c :: u) w) as [[data|e|] w1]; cbn [fst snd] in *.
  - pose proof (start_matrix_data_world (nets (length (requests w1))) (c :: u) w1)
      as [Hreq2 _].
    pose proof (start_matrix_data_not_out_of_fuel (nets (length (requests w1)))
                  (c :: u) w1) as Hfuel.
    assert (Htwo : forall w2, requests w2 = requests w1 ++ [c :: u] ->
                     requests w2 = requests w
                     \/ (exists u0, Some (c :: u) = Some u0
                                    /\ requests w2 = requests w ++ [u0])
                     \/ (exists u0, Some (c :: u) = Some u0
                                    /\ requests w2 = requests w ++ [u0; u0])).
    { intros w2 H. right. right. exists (c :: u). split; [reflexivity|].
      rewrite H, Hreq1, <- app_assoc. reflexivity. }
    destruct (start_matrix_data _ (c :: u) w1) as [[start|e|] w2];
      cbn [fst snd] in *.
    + destruct (create_raises fw start data) as [e|].
      { destruct (isinstance e ValueError) eqn:Hv; cbn [fst snd];
          repeat split; try discriminate; auto.
        - intros rep [= <-]. auto.
        - intros e' [= <-]. exact Hv. }
      destruct (serializer_raises fw start data) as [e|].
      { destruct (isinstance e ValueError) eqn:Hv; cbn [fst snd];
          repeat split; try discriminate; eauto.
        - intros rep [= <-]. auto.
        - intros e' [= <-]. exact Hv. }
      cbn [fst snd]. repeat split; try discriminate; eauto.
      intros rep [= <-]. auto.
    + destruct (isinstance e ValueError) eqn:Hv; cbn [fst snd];
        repeat split; try discriminate; auto.
      * intros rep [= <-]. auto.
      * intros e' [= <-]. exact Hv.
    + contradiction.
  - destruct Htotal as [[out Hout]|[msg Hmsg]]; [discriminate|].
    injection Hmsg as ->. cbn [isinstance value_error exn_cls ancestors existsb
                               exn_class_eqb orb fst snd].
    repeat split; try discriminate; auto.
    + intros rep [= <-]. auto.
    + right. left. eauto.
  - destruct Htotal as [[out Hout]|[msg Hmsg]]; discriminate.
Qed.

(** X20.  With a network that gives the same answer to both requests, an
    answer whose body the two clients decode to the same text, and a
    framework that raises nothing, the view answers 200 whenever
    [get_matrix] returns a list: the payload is that list, and the row
    created holds a grid whose traversal is that list. *)
Theorem post_with_stable_network (net : network) (url : str) (w : world)
  (db : database) (out : list Z) (r : response) :
  url <> [] ->
  fst (get_matrix net url w) = Ok out ->
  net url = inr r -> body r = inr (requests_text r) ->
  exists g w',
    post quiet_framework (fun _ => net) (Some url) w db
    = (Ok (mk_reply 200 (data_payload out)), w', db ++ [(g, out)])
    /\ counterclockwise_traversal g = Ok out.
Proof.
  intros Hurl Hget Hr Hsame. destruct url as [|c u]; [contradiction|].
  destruct (get_matrix_ok_inv _ _ _ _ Hget)
    as (r' & text & g & Hnet & Hst & Hbody & Hparse & Htrav & Hsnd).
  assert (r' = r) by congruence. subst r'.
  assert (text = requests_text r) by congruence. subst text.
  exists g, (read_body (send_request (c :: u) (read_body (send_request (c :: u) w)))).
  split; [|exact Htrav].
  unfold post, post_try.
  destruct (get_matrix net (c :: u) w) as [res w1]. cbn [fst snd] in Hget, Hsnd.
  subst res w1.
  unfold start_matrix_data, raise_for_status. rewrite Hnet, Hst.
  cbn [Z.leb Z.ltb Z.compare Pos.compare Pos.compare_cont andb].
  unfold start_matrix_parse. rewrite strip_idempotent.
  unfold get_matrix_parse in Hparse. rewrite Hparse. reflexivity.
Qed.

Lemma post_with_stable_network_witness :
  exists g w',
    post quiet_framework (fun _ => answer 200 (py "|1|2|")) (Some example_url)
      fresh_world []
    = (Ok (mk_reply 200 (data_payload [1; 2])), w', [] ++ [(g, [1; 2])])
    /\ counterclockwise_traversal g = Ok [1; 2].
Proof.
  apply (post_with_stable_network (answer 200 (py "|1|2|")) example_url
           fresh_world [] [1; 2]
           (mk_response 200 (py "") example_url (inr (py "|1|2|")) (py "|1|2|"))).
  - discriminate.
  - reflexivity.
  - reflexivity.
  - reflexivity.
Defined.

(** X21.  When [get_matrix] has returned a list and the second request is
    answered with a status from 400 to 599, the exception of
    [raise_for_status] leaves the view: it is no [ValueError], so no reply
    is built, and no row is created. *)
Theorem post_lets_http_error_through (fw : framework) (nets : nat -> network)
  (url : str) (w : world) (db : database) (out : list Z) (r2 : response) :
  url <> [] ->
  fst (get_matrix (nets (length (requests w))) url w) = Ok out ->
  nets (S (length (requests w))) url = inr r2 ->
  400 <= status r2 < 600 ->
  exists e w',
    post fw nets (Some url) w db = (Raise e, w', db)
    /\ raise_for_status r2 = Raise e
    /\ isinstance e ValueError = false.
Proof.
  intros Hurl Hget Hnet2 Hstatus. destruct url as [|c u]; [contradiction|].
  destruct (get_matrix_ok_inv _ _ _ _ Hget)
    as (_ & _ & _ & _ & _ & _ & _ & _ & Hsnd).
  assert (Hraise : exists e, raise_for_status r2 = Raise e
                             /\ isinstance e ValueError = false).
  { unfold raise_for_status.
    destruct (Z.leb_spec 400 (status r2)); [|lia].
    destruct (Z.ltb_spec (status r2) 500); cbn [andb]; [eauto|].
    destruct (Z.leb_spec 500 (status r2)); [|lia].
    destruct (Z.ltb_spec (status r2) 600); [|lia]. cbn [andb]. eauto. }
  destruct Hraise as (e & Hraise & Hclass).
  exists e, (send_request (c :: u) (read_body (send_request (c :: u) w))).
  split; [|auto].
  unfold post, post_try.
  destruct (get_matrix _ (c :: u) w) as [res w1]. cbn [fst snd] in Hget, Hsnd.
  subst res w1.
  cbn [read_body send_request requests]. rewrite length_app. cbn [length].
  replace (length (requests w) + 1)%nat with (S (length (requests w))) by lia.
  unfold start_matrix_data. rewrite Hnet2, Hraise, Hclass. reflexivity.
Qed.

Lemma post_lets_http_error_through_witness :
  exists e w',
    post quiet_framework
      (fun n => match n with O => answer 200 (py "|1|2|") | _ => answer 404 (py "") end)
      (Some example_url) fresh_world []
    = (Raise e, w', [])
    /\ raise_for_status (mk_response 404 (py "") example_url (inr (py "")) (py ""))
       = Raise e
    /\ isinstance e ValueError = false.
Proof.
  apply (post_lets_http_error_through quiet_framework
           (fun n => match n with O => answer 200 (py "|1|2|") | _ => answer 404 (py "") end)
           example_url fresh_world [] [1; 2]).
  - discriminate.
  - reflexivity.
  - reflexivity.
  - cbn. lia.
Defined.

Lemma post_invariants_witness :
  (reply_status (mk_reply 200 (data_payload [1; 2])) = 200
   \/ reply_status (mk_reply 200 (data_payload [1; 2])) = 400)
  /\ isinstance (mk_exn OtherException (py "no database")) ValueError = false.
Proof.
  split.
  - apply (proj1 (proj2 (post_invariants quiet_framework
                           (fun _ => answer 200 (py "|1|2|"))
                           (Some example_url) fresh_world []))).
    reflexivity.
  - apply (proj1 (proj2 (proj2 (post_invariants
                                  (mk_framework
                                     (fun _ _ => Some (mk_exn OtherException
                                                         (py "no database")))
                                     (fun _ _ => None))
                                  (fun _ => answer 200 (py "|1|2|"))
                                  (Some example_url) fresh_world [])))).
    reflexivity.
Defined.

(** ** main *)

(** X22.  When the server answers the request of [main] with status 200
    and the document of a rectangular grid that has a cell, every cell
    written in at most 4300 characters, [main] prints its line of success
    if the traversal of the grid is the list it expects, and raises
    [AssertionError] without printing otherwise. *)
Theorem main_on_formatted_document (net : network) (w : world) (r : response)
  (g : grid) (rows cols : Z) (before after : str) :
  rectangular g rows cols -> 0 < rows -> 0 < cols -> within_digit_limit g ->
  Forall (fun c => is_space c = true) before ->
  Forall (fun c => is_space c = true) after ->
  net source_url = inr r -> status r = 200 ->
  body r = inr (before ++ format_grid g ++ after) ->
  (counterclockwise_traversal g = Ok traversal ->
     main net w
     = (Ok tt, read_body (send_request source_url w),
        [py "Test passed successfully."]))
  /\ (counterclockwise_traversal g <> Ok traversal ->
      main net w
      = (Raise assertion_error, read_body (send_request source_url w), [])).
Proof.
  intros Hrect Hrows Hcols Hlimit Hb Ha Hnet Hstatus Hbody.
  destruct (traversal_run_rectangular g rows cols Hrect Hrows)
    as (st & Hrun & _ & _).
  apply counterclockwise_traversal_run in Hrun.
  pose proof (get_matrix_format_grid net source_url w r g rows cols before after
                (result st) Hrect Hcols Hlimit Hb Ha Hnet Hstatus Hbody Hrun) as Hget.
  unfold main. rewrite Hget. split; intro H.
  - destruct (list_eq_dec Z.eq_dec (result st) traversal) as [_|Hne];
      [reflexivity | congruence].
  - destruct (list_eq_dec Z.eq_dec (result st) traversal) as [Heq|_];
      [congruence | reflexivity].
Qed.

Lemma main_on_formatted_document_witness :
  main (fun _ => inr (served (format_grid reference_grid ++ [newline]))) fresh_world
  = (Ok tt, read_body (send_request source_url fresh_world),
     [py "Test passed successfully."])
  /\ main (fun _ => inr (served (format_grid [[1; 2]; [3; 4]] ++ [newline])))
       fresh_world
     = (Raise assertion_error, read_body (send_request source_url fresh_world), []).
Proof.
  split.
  - apply (proj1 (main_on_formatted_document
                    (fun _ => inr (served (format_grid reference_grid ++ [newline])))
                    fresh_world
                    (served (format_grid reference_grid ++ [newline]))
                    reference_grid 4 4 [] [newline]
                    ltac:(split; [reflexivity | repeat constructor])
                    ltac:(lia) ltac:(lia)
                    ltac:(repeat constructor; vm_compute; discriminate)
                    ltac:(constructor)
                    ltac:(repeat constructor) eq_refl eq_refl eq_refl)).
    reflexivity.
  - apply (proj2 (main_on_formatted_document
                    (fun _ => inr (served (format_grid [[1; 2]; [3; 4]] ++ [newline])))
                    fresh_world
                    (served (format_grid [[1; 2]; [3; 4]] ++ [newline]))
                    [[1; 2]; [3; 4]] 2 2 [] [newline]
                    ltac:(split; [reflexivity | repeat constructor])
                    ltac:(lia) ltac:(lia)
                    ltac:(repeat constructor; vm_compute; discriminate)
                    ltac:(constructor)
                    ltac:(repeat constructor) eq_refl eq_refl eq_refl)).
    discriminate.
Defined.

(** ** The failures of get_matrix *)

(** Whatever the [try] block raises is normalized. *)
Lemma try_block_raise_normalizes (net : network) (url : str) (w w1 : world) (e : exn) :
  try_block net url w = (Raise e, w1) -> normalizes net url w w1 e.
Proof.
  intro Htry. unfold normalizes.
  destruct (first_clause_total url e) as (msg & Hclause & Hurl & Htext & Htimeout).
  destruct (try_block_world net url w) as [Hreq Hlog].
  rewrite Htry in Hreq, Hlog. cbn [snd] in Hreq, Hlog.
  exists msg. unfold get_matrix. rewrite Htry, Hclause.
  cbn [snd logger_error log requests]. rewrite Hreq, Hlog. auto 10.
Qed.

Lemma try_block_ok_status (net : network) (url : str) (w : world) (r : response) :
  net url = inr r -> status r = 200 ->
  try_block net url w
  = match body r with
    | inl e => (Raise e, read_body (send_request url w))
    | inr text =>
        (bind (get_matrix_parse text) counterclockwise_traversal,
         read_body (send_request url w))
    end.
Proof.
  intros Hnet Hstatus. unfold try_block. rewrite Hnet, Hstatus. reflexivity.
Qed.

(** C6.  Every cause of failure inside [get_matrix] ends in the same way:
    a [ValueError] is raised in its place, its message holds the URL and
    the cause (the text of the exception, or the words [Connection
    timeout] when the exception is a plain [asyncio.TimeoutError]), that
    message is logged once at severity [ERROR], and exactly one request has
    been sent.  The causes, in the order of the code: the request raises
    (no connection, timeout, disconnection or anything else); the status is
    500 or more; the status is another one than 200; the reading of the
    body raises; [int] refuses a field of a retained row; the traversal
    raises [IndexError] on a row shorter than the first. *)
Theorem failures_are_normalized (net : network) (url : str) (w : world) :
  (forall e, net url = inl e -> normalizes net url w (send_request url w) e)
  /\ (forall r,
        net url = inr r -> 500 <= status r ->
        normalizes net url w (send_request url w)
          (value_error (server_error_text url (status r))))
  /\ (forall r,
        net url = inr r -> status r < 500 -> status r <> 200 ->
        normalizes net url w (send_request url w)
          (value_error (bad_status_text url (status r))))
  /\ (forall r e,
        net url = inr r -> status r = 200 -> body r = inl e ->
        normalizes net url w (read_body (send_request url w)) e)
  /\ (forall r text row field,
        net url = inr r -> status r = 200 -> body r = inr text ->
        In row (text_rows (strip text)) -> In field row ->
        (exists e0, py_int field = Raise e0) ->
        exists row' bad e,
          In row' (text_rows (strip text)) /\ In bad row'
          /\ py_int bad = Raise e
          /\ normalizes net url w (read_body (send_request url w)) e)
  /\ (forall r text g,
        net url = inr r -> status r = 200 -> body r = inr text ->
        get_matrix_parse text = Ok g ->
        Exists (fun row => (length row < length (hd [] g))%nat) g ->
        normalizes net url w (read_body (send_request url w)) index_error).
Proof.
  repeat split.
  - intros e Hnet. apply try_block_raise_normalizes.
    unfold try_block. rewrite Hnet. reflexivity.
  - intros r Hnet Hst. apply try_block_raise_normalizes.
    unfold try_block. rewrite Hnet, Z.geb_leb.
    destruct (Z.leb_spec 500 (status r)); [reflexivity | lia].
  - intros r Hnet Hst Hne. apply try_block_raise_normalizes.
    unfold try_block. rewrite Hnet, Z.geb_leb.
    destruct (Z.leb_spec 500 (status r)); [lia|].
    destruct (Z.eqb_spec (status r) 200); [contradiction | reflexivity].
  - intros r e Hnet Hst Hbody. apply try_block_raise_normalizes.
    rewrite (try_block_ok_status net url w r Hnet Hst), Hbody. reflexivity.
  - intros r text row field Hnet Hst Hbody Hrow Hfield Hbad.
    destruct (rows_matrix_raises _ row field Hrow Hfield Hbad)
      as (row' & bad & e & Hrow' & Hbad' & Hraise & Hparse).
    exists row', bad, e. repeat split; try assumption.
    apply try_block_raise_normalizes.
    rewrite (try_block_ok_status net url w r Hnet Hst), Hbody.
    unfold get_matrix_parse. rewrite Hparse. reflexivity.
  - intros r text g Hnet Hst Hbody Hparse Hshort.
    apply try_block_raise_normalizes.
    rewrite (try_block_ok_status net url w r Hnet Hst), Hbody, Hparse. cbn [bind].
    destruct g as [|row0 rest]; [inversion Hshort|].
    pose proof (traversal_read_cells row0 rest) as H. cbv zeta in H.
    rewrite read_cells_short_row in H by exact Hshort. rewrite H. reflexivity.
Qed.

Lemma failures_are_normalized_witness :
  normalizes (fun _ => inl (mk_exn ClientConnectionError (py "refused")))
    example_url fresh_world (send_request example_url fresh_world)
    (mk_exn ClientConnectionError (py "refused"))
  /\ normalizes (fun _ => inl (mk_exn AsyncioTimeoutError []))
       example_url fresh_world (send_request example_url fresh_world)
       (mk_exn AsyncioTimeoutError [])
  /\ normalizes (answer 503 (py "|1|")) example_url fresh_world
       (send_request example_url fresh_world)
       (value_error (server_error_text example_url 503))
  /\ normalizes (answer 404 (py "|1|")) example_url fresh_world
       (send_request example_url fresh_world)
       (value_error (bad_status_text example_url 404))
  /\ normalizes
       (fun _ => inr (mk_response 200 (py "OK") example_url
                        (inl (mk_exn ClientPayloadError (py "cut short"))) []))
       example_url fresh_world (read_body (send_request example_url fresh_world))
       (mk_exn ClientPayloadError (py "cut short"))
  /\ (exists row' bad e,
        In row' (text_rows (strip (py "|1|x|"))) /\ In bad row'
        /\ py_int bad = Raise e
        /\ normalizes (answer 200 (py "|1|x|")) example_url fresh_world
             (read_body (send_request example_url fresh_world)) e)
  /\ normalizes (answer 200 (py "|1|2|" ++ [newline] ++ py "|3|"))
       example_url fresh_world (read_body (send_request example_url fresh_world))
       index_error.
Proof.
  split; [|split; [|split; [|split; [|split; [|split]]]]].
  - apply (proj1 (failures_are_normalized
                    (fun _ => inl (mk_exn ClientConnectionError (py "refused")))
                    example_url fresh_world)).
    reflexivity.
  - apply (proj1 (failures_are_normalized
                    (fun _ => inl (mk_exn AsyncioTimeoutError []))
                    example_url fresh_world)).
    reflexivity.
  - destruct (failures_are_normalized (answer 503 (py "|1|")) example_url fresh_world)
      as (_ & H & _).
    apply (H (mk_response 503 (py "") example_url (inr (py "|1|")) (py "|1|")));
      [reflexivity | cbn; lia].
  - destruct (failures_are_normalized (answer 404 (py "|1|")) example_url fresh_world)
      as (_ & _ & H & _).
    apply (H (mk_response 404 (py "") example_url (inr (py "|1|")) (py "|1|")));
      [reflexivity | cbn; lia | cbn; lia].
  - destruct (failures_are_normalized
                (fun _ => inr (mk_response 200 (py "OK") example_url
                                 (inl (mk_exn ClientPayloadError (py "cut short"))) []))
                example_url fresh_world) as (_ & _ & _ & H & _).
    apply (H (mk_response 200 (py "OK") example_url
                (inl (mk_exn ClientPayloadError (py "cut short"))) []));
      reflexivity.
  - destruct (failures_are_normalized (answer 200 (py "|1|x|")) example_url fresh_world)
      as (_ & _ & _ & _ & H & _).
    apply (H (mk_response 200 (py "") example_url (inr (py "|1|x|")) (py "|1|x|"))
             (py "|1|x|") [py "1"; py "x"] (py "x")); try reflexivity.
    + vm_compute. left. reflexivity.
    + right. left. reflexivity.
    + eexists. vm_compute. reflexivity.
  - destruct (failures_are_normalized
                (answer 200 (py "|1|2|" ++ [newline] ++ py "|3|"))
                example_url fresh_world) as (_ & _ & _ & _ & _ & H).
    apply (H (mk_response 200 (py "") example_url
                (inr (py "|1|2|" ++ [newline] ++ py "|3|"))
                (py "|1|2|" ++ [newline] ++ py "|3|"))
             (py "|1|2|" ++ [newline] ++ py "|3|") [[1; 2]; [3]]);
      try reflexivity.
    right. left. simpl. lia.
Defined.

(** C7.  When the status is 200 and [int] refuses some field of a retained
    row of the body, because it is no integer literal or has too many
    digits, the parsing step raises the [ValueError] of [int] at such a
    field; none of the five specific clauses catches it, the last clause
    does, and [get_matrix] ends by logging and raising a [ValueError] with
    the message of the last clause around the text of that exception: it
    neither returns a list nor lets another exception through. *)
Theorem non_integer_field_raises (net : network) (url : str) (w : world)
  (r : response) (text : str) (row : list str) (field : str) :
  net url = inr r -> status r = 200 -> body r = inr text ->
  In row (text_rows (strip text)) -> In field row ->
  (exists e0, py_int field = Raise e0) ->
  exists row' bad e,
    In row' (text_rows (strip text)) /\ In bad row'
    /\ py_int bad = Raise e
    /\ get_matrix_parse text = Raise e
    /\ exn_cls e = ValueError
    /\ (forall c, In c specific_classes -> isinstance e c = false)
    /\ isinstance e Exception = true
    /\ get_matrix net url w
       = (Raise (value_error (generic_text url (exn_text e))),
          logger_error (generic_text url (exn_text e))
            (read_body (send_request url w))).
Proof.
  intros Hnet Hstatus Hbody Hrow Hfield Hbad.
  destruct (rows_matrix_raises _ row field Hrow Hfield Hbad)
    as (row' & bad & e & Hrow' & Hbad' & Hraise & Hparse).
  exists row', bad, e.
  destruct (py_int_raises_value_error bad e Hraise) as [t ->].
  repeat split; try assumption.
  - intros c Hc. cbn in Hc.
    destruct Hc as [<-|[<-|[<-|[<-|[<-|[]]]]]]; reflexivity.
  - unfold get_matrix. rewrite (try_block_ok_status net url w r Hnet Hstatus), Hbody.
    unfold get_matrix_parse. rewrite Hparse. cbn [bind].
    rewrite first_clause_value_error. reflexivity.
Qed.

(** A string that is no integer literal is a field [int] refuses. *)
Lemma non_integer_field_raises_witness :
  exists row' bad e,
    In row' (text_rows (strip (py "|1|x|"))) /\ In bad row'
    /\ py_int bad = Raise e
    /\ fst (get_matrix (answer 200 (py "|1|x|")) example_url fresh_world)
       = Raise (value_error (generic_text example_url (exn_text e))).
Proof.
  destruct (non_integer_field_raises (answer 200 (py "|1|x|")) example_url fresh_world
              (mk_response 200 (py "") example_url (inr (py "|1|x|")) (py "|1|x|"))
              (py "|1|x|") [py "1"; py "x"] (py "x") eq_refl eq_refl eq_refl)
    as (row' & bad & e & Hrow' & Hbad & Hraise & _ & _ & _ & _ & Hrun).
  - vm_compute. left. reflexivity.
  - right. left. reflexivity.
  - apply py_int_of_non_literal. reflexivity.
  - exists row', bad, e. repeat split; try assumption. rewrite Hrun. reflexivity.
Defined.

(** A literal of 4301 digits is a field [int] refuses, whatever comes after
    it in the row. *)
Example too_many_digits_refused :
  py_int (repeat "7"%char 4301)
  = Raise (digit_limit_error 4301).
Proof. vm_compute. reflexivity. Qed.
